(** * Baatein voice agent: response-orchestration core

    A shallow embedding of [app/config.py], [app/llm.py], [app/search.py],
    [app/tts.py], [app/pipeline.py] and the session loop of [app/server.py],
    with the properties of the specification stated and settled against
    it.

    Python [str] values are sequences of Unicode code points; they are
    modelled as lists of [N].  The asyncio queue is a list of items
    ([Some fragment] or the [None] end sentinel), appended at the back.
    Collaborators (the token stream, the synthesis socket, the search
    provider, the cancel event) are inputs of the model. *)

From Stdlib Require Import QArith.
From stdpp Require Import gmap list strings.

Local Open Scope nat_scope.

(** ** Python strings *)

Definition char := N.
Definition str := list char.

(** Literal of the source, read code point by code point. *)
Definition py (s : string) : str :=
  map Ascii.N_of_ascii (String.list_ascii_of_string s).

Definition in_range (lo hi c : N) : bool := ((lo <=? c) && (c <=? hi))%N.

(** [Py_UNICODE_ISSPACE]: the whitespace test shared by [str.split],
    [str.strip] (both without argument) and the [\s] class of [re] on [str]
    patterns. *)
Definition is_space (c : char) : bool :=
  in_range 9 13 c || in_range 28 31 c || (c =? 32)%N || (c =? 133)%N
  || (c =? 160)%N || (c =? 5760)%N || in_range 8192 8202 c
  || (c =? 8232)%N || (c =? 8233)%N || (c =? 8239)%N || (c =? 8287)%N
  || (c =? 12288)%N.

Definition nonempty (s : str) : bool :=
  match s with [] => false | _ => true end.

Fixpoint lstrip_by (p : char -> bool) (s : str) : str :=
  match s with
  | [] => []
  | c :: s' => if p c then lstrip_by p s' else s
  end.

Fixpoint rstrip_by (p : char -> bool) (s : str) : str :=
  match s with
  | [] => []
  | c :: s' =>
      match rstrip_by p s' with
      | [] => if p c then [] else [c]
      | r => c :: r
      end
  end.

(** [s.strip(chars)] with the character set given as a predicate. *)
Definition strip_by (p : char -> bool) (s : str) : str :=
  lstrip_by p (rstrip_by p s).

(** [s.strip()] *)
Definition strip (s : str) : str := strip_by is_space s.

(** [s.replace(c, '')] for a one-character [c]. *)
Definition remove_char (c : char) (s : str) : str :=
  List.filter (fun x => negb (x =? c)%N) s.

(** [' '.join(ws)] *)
Fixpoint join_space (ws : list str) : str :=
  match ws with
  | [] => []
  | [w] => w
  | w :: ws' => w ++ 32%N :: join_space ws'
  end.

(** [s.split()]: maximal runs of non-whitespace code points.  [cur] is the
    word being read, kept in reading order. *)
Fixpoint split_from (cur : str) (s : str) : list str :=
  match s with
  | [] => if nonempty cur then [cur] else []
  | c :: s' =>
      if is_space c
      then (if nonempty cur then cur :: split_from [] s' else split_from [] s')
      else split_from (cur ++ [c]) s'
  end.

Definition split (s : str) : list str := split_from [] s.

Fixpoint starts_with (needle s : str) : bool :=
  match needle, s with
  | [], _ => true
  | _ :: _, [] => false
  | a :: needle', b :: s' => (a =? b)%N && starts_with needle' s'
  end.

(** [needle in s] *)
Fixpoint contains (needle s : str) : bool :=
  starts_with needle s ||
  match s with
  | [] => false
  | _ :: s' => contains needle s'
  end.

(** ** config.py *)

(** Character class [[.!?;]] of [SENTENCE_END]. *)
Definition is_terminator (c : char) : bool :=
  (c =? 46)%N || (c =? 33)%N || (c =? 63)%N || (c =? 59)%N.

(** Length of the whitespace run at the head of [s]: what a greedy [\s*]
    consumes there. *)
Fixpoint ws_run (s : str) : nat :=
  match s with
  | c :: s' => if is_space c then S (ws_run s') else 0
  | [] => 0
  end.

(** [SENTENCE_END.search(b)] for [SENTENCE_END = re.compile(r'[.!?;]\s+|\n')]:
    [None] when nothing matches, otherwise [match.end()] of the leftmost
    match, the whitespace run being taken greedily. *)
Fixpoint SENTENCE_END_search (b : str) : option nat :=
  match b with
  | [] => None
  | c :: b' =>
      if is_terminator c && (0 <? ws_run b') then Some (S (ws_run b'))
      else if (c =? 10)%N then Some 1
      else S <$> SENTENCE_END_search b'
  end.

(** Character class of [EMOJI_PATTERN]. *)
Definition is_emoji (c : char) : bool :=
  in_range 0x1F600 0x1F64F c || in_range 0x1F300 0x1F5FF c
  || in_range 0x1F680 0x1F6FF c || in_range 0x1F1E0 0x1F1FF c
  || in_range 0x2702 0x27B0 c || in_range 0x24C2 0x1F251 c
  || in_range 0x1F926 0x1F937 c || in_range 0x10000 0x10FFFF c
  || in_range 0x2640 0x2642 c || in_range 0x2600 0x2B55 c
  || (c =? 0x200D)%N || (c =? 0x23CF)%N || (c =? 0x23E9)%N
  || (c =? 0x231A)%N || (c =? 0xFE0F)%N || (c =? 0x3030)%N.

(** [EMOJI_PATTERN.sub('', text)]: the pattern is one class under [+], so
    substitution deletes exactly the code points of the class. *)
Definition EMOJI_PATTERN_sub (text : str) : str :=
  List.filter (fun c => negb (is_emoji c)) text.

(** ** llm.py *)

Definition clean_for_tts (text : str) : str :=
  let text := EMOJI_PATTERN_sub text in
  let text := remove_char 96%N (remove_char 35%N (remove_char 42%N text)) in
  strip text.

(** The hand-off queue: [Some s] is a sentence fragment, [None] the
    end-of-stream sentinel. *)
Definition queue := list (option str).

Definition put_nowait (q : queue) (item : option str) : queue := q ++ [item].

(** [if clean: queue.put_nowait(clean)] *)
Definition put_if_nonempty (q : queue) (clean : str) : queue :=
  if nonempty clean then put_nowait q (Some clean) else q.

(** The [while True] loop of [extract_sentences].  Every iteration removes
    at least one code point from the buffer, so [length buffer] iterations
    are enough; [fuel] counts them. *)
Fixpoint extract_loop (fuel : nat) (buffer : str) (q : queue) : str * queue :=
  match fuel with
  | 0 => (buffer, q)
  | S fuel' =>
      match SENTENCE_END_search buffer with
      | None => (buffer, q)
      | Some end_pos =>
          let sentence := strip (take end_pos buffer) in
          let buffer' := drop end_pos buffer in
          let clean := clean_for_tts sentence in
          extract_loop fuel' buffer' (put_if_nonempty q clean)
      end
  end.

Definition extract_sentences (buffer : str) (q : queue) : str * queue :=
  extract_loop (length buffer) buffer q.

(** ** Exceptions

    A call either returns a value or raises an [Exception] carrying the
    text [str(e)]. *)

Inductive exc : Type := Exception (msg : str).

Inductive result (A : Type) : Type :=
| Returns (a : A)
| Raises (e : exc).
Arguments Returns {A} a.
Arguments Raises {A} e.

Definition bind {A B : Type} (m : result A) (k : A -> result B) : result B :=
  match m with
  | Returns a => k a
  | Raises e => Raises e
  end.

Notation "'let!' x ':=' m 'in' k" := (bind m (fun x => k))
  (at level 10, x name, m at level 200, k at level 200).

Fixpoint for_each {A B : Type} (f : A -> result B) (l : list A) : result (list B) :=
  match l with
  | [] => Returns []
  | a :: l' => let! b := f a in let! bs := for_each f l' in Returns (b :: bs)
  end.

(** ** search.py *)

Definition FILLER_WORDS : gset str :=
  list_to_set (py <$>
    ["hmm"; "hm"; "um"; "uh"; "ah"; "okay"; "ok"; "like"; "yeah"; "yes"; "no";
     "right"; "so"; "well"; "actually"; "basically"; "you know"; "i mean";
     "let me think"; "wait"; "hold on"; "alla"; "adu"; "ennu"; "aanu";
     "hmm."; "okay."; "yeah."; "yes."; "no."; "super"; "super."]%string).

(** One search hit: a dict from field names to texts. *)
Definition hit := gmap str str.

(** [r[key]]: a missing key raises [KeyError(key)], whose text is the
    quoted key. *)
Definition getitem (r : hit) (key : str) : result str :=
  match r !! key with
  | Some v => Returns v
  | None => Raises (Exception (py "'" ++ key ++ py "'"))
  end.

(** ['\n'.join(lines)] *)
Fixpoint join_lines (lines : list str) : str :=
  match lines with
  | [] => []
  | [l] => l
  | l :: ls => l ++ 10%N :: join_lines ls
  end.

(** [f"- {r['title']}: {r['body']}"] *)
Definition format_hit (r : hit) : result str :=
  let! title := getitem r (py "title") in
  let! body := getitem r (py "body") in
  Returns (py "- " ++ title ++ py ": " ++ body).

(** The search collaborator: [DDGS().text(query, max_results=n)] returns the
    hits or raises. *)
Definition provider := str -> nat -> result (list hit).

(** Body of the [try] block of [web_search]. *)
Definition web_search_try (ddgs : provider) (query : str) (max_results : nat)
  : result str :=
  let! results := ddgs query max_results in
  match results with
  | [] => Returns (py "No results found.")
  | _ =>
      let! formatted := for_each format_hit results in
      Returns (join_lines formatted)
  end.

(** [web_search]: the [except Exception as e] clause turns every exception
    of the body into the returned text. *)
Definition web_search (ddgs : provider) (query : str) (max_results : nat)
  : result str :=
  match web_search_try ddgs query max_results with
  | Returns s => Returns s
  | Raises (Exception e) => Returns (py "Search error: " ++ e)
  end.

(** Argument of [w.strip('.,!?')]. *)
Definition is_trim_punct (c : char) : bool :=
  (c =? 46)%N || (c =? 44)%N || (c =? 33)%N || (c =? 63)%N.

(** [str.lower] restricted to the ASCII letters; it agrees with Python on
    ASCII text and is used where a concrete case table is needed. *)
Definition ascii_lower (s : str) : str :=
  map (fun c => if in_range 65 90 c then (c + 32)%N else c) s.

Section Search.

(** [str.lower()]: the Unicode case table is not part of the repository;
    every function below is stated for an arbitrary one. *)
Variable lower : str -> str.

(** The test of the [for] loop of [clean_for_search]. *)
Definition is_filler (w : str) : bool :=
  bool_decide (strip_by is_trim_punct (lower w) ∈ FILLER_WORDS).

Definition clean_for_search (transcript : str) : str :=
  let words := split transcript in
  let cleaned := List.filter (fun w => negb (is_filler w)) words in
  let result := strip (join_space cleaned) in
  if length result <? 5 then strip transcript else result.

(** [set(q.lower().split())] *)
Definition word_set (q : str) : gset str := list_to_set (split (lower q)).

(** [query_similarity].  The quotient of the two [int]s is kept as the
    exact rational; Python returns the [float] nearest to it. *)
Definition query_similarity (q1 q2 : str) : Q :=
  let w1 := word_set q1 in
  let w2 := word_set q2 in
  if bool_decide (w1 = ∅) || bool_decide (w2 = ∅) then 0%Q
  else (inject_Z (Z.of_nat (size (w1 ∩ w2)))
        / inject_Z (Z.of_nat (Nat.max (size w1) (size w2))))%Q.

(** The Jaccard ratio of the word sets, as the specification words it. *)
Definition jaccard (q1 q2 : str) : Q :=
  let w1 := word_set q1 in
  let w2 := word_set q2 in
  if bool_decide (w1 = ∅) || bool_decide (w2 = ∅) then 0%Q
  else (inject_Z (Z.of_nat (size (w1 ∩ w2)))
        / inject_Z (Z.of_nat (size (w1 ∪ w2))))%Q.

End Search.

(** ** tts.py *)

(** Messages received from the synthesis socket [tts_ws]. *)
Inductive tts_message : Type :=
| AudioOutput (audio : str)
| EventResponse (event_type : str)
| OtherMessage.

(** Events sent to the browser with [websocket.send_text].  The trace
    records every call; the socket is taken to accept it. *)
Inductive event : Type :=
| llm_chunk (text : str)
| audio_chunk (audio : str) (chunk_num : nat).

(** One use of the synthesis collaborator: whether [connect] and
    [configure] succeed, and the messages the socket then delivers, each
    paired with the value of [cancel_event.is_set()] when the reader loop
    examines it.  The end of the list is the end of the iteration, by
    closure of the socket or by an exception; both leave the loop the same
    way, through [return chunk_count]. *)
Record synthesis : Type := {
  connects : bool;
  incoming : list (bool * tts_message)
}.

Record reader_state : Type := {
  chunk_count : nat;
  sent : list event
}.

Inductive ctl : Type := Next | Break.

Definition str_eqb (a b : str) : bool := bool_decide (a = b).

(** One iteration of [async for message in tts_ws]. *)
Definition reader_step (cancelled : bool) (message : tts_message)
    (st : reader_state) : ctl * reader_state :=
  if cancelled then (Break, st)
  else
    match message with
    | AudioOutput audio =>
        let chunk_count' := chunk_count st + 1 in
        (Next, {| chunk_count := chunk_count';
                  sent := sent st ++ [audio_chunk audio chunk_count'] |})
    | EventResponse event_type =>
        if str_eqb event_type (py "final") then (Break, st) else (Next, st)
    | OtherMessage => (Next, st)
    end.

Fixpoint reader_loop (incoming : list (bool * tts_message)) (st : reader_state)
  : reader_state :=
  match incoming with
  | [] => st
  | (cancelled, message) :: rest =>
      match reader_step cancelled message st with
      | (Next, st') => reader_loop rest st'
      | (Break, st') => st'
      end
  end.

(** [stream_to_client]: the returned [chunk_count] together with the events
    sent.  A failed [connect] is caught by the [except] clause before the
    loop is entered. *)
Definition stream_to_client (tts_ws : synthesis) : nat * list event :=
  let st0 := {| chunk_count := 0; sent := [] |} in
  let st := if connects tts_ws then reader_loop (incoming tts_ws) st0 else st0 in
  (chunk_count st, sent st).

(** ** pipeline.py: the two producers and the consumer of the first leg *)

Record producer_state : Type := {
  full_response : str;
  sentence_buffer : str;
  is_search : bool;
  search_detected : bool;
  sentences_queue : queue;
  chunks_sent : list event
}.

Definition producer_init : producer_state :=
  {| full_response := []; sentence_buffer := []; is_search := false;
     search_detected := false; sentences_queue := []; chunks_sent := [] |}.

Definition SEARCH_MARKER : str := py "[SEARCH:".

(** Body of [async for content in llm.stream_tokens(...)] in
    [run.llm_producer]. *)
Definition producer_step (st : producer_state) (content : str) : producer_state :=
  let full_response := full_response st ++ content in
  let chunks_sent := chunks_sent st ++ [llm_chunk content] in
  if negb (search_detected st) then
    if contains SEARCH_MARKER full_response then
      {| full_response := full_response; sentence_buffer := sentence_buffer st;
         is_search := true; search_detected := true;
         sentences_queue := sentences_queue st; chunks_sent := chunks_sent |}
    else if (80 <? length full_response)
            || bool_decide (is_Some (SENTENCE_END_search full_response)) then
      let '(sentence_buffer, q) :=
        extract_sentences full_response (sentences_queue st) in
      {| full_response := full_response; sentence_buffer := sentence_buffer;
         is_search := false; search_detected := true;
         sentences_queue := q; chunks_sent := chunks_sent |}
    else
      {| full_response := full_response; sentence_buffer := sentence_buffer st;
         is_search := is_search st; search_detected := search_detected st;
         sentences_queue := sentences_queue st; chunks_sent := chunks_sent |}
  else if negb (is_search st) then
    let '(sentence_buffer, q) :=
      extract_sentences (sentence_buffer st ++ content) (sentences_queue st) in
    {| full_response := full_response; sentence_buffer := sentence_buffer;
       is_search := is_search st; search_detected := search_detected st;
       sentences_queue := q; chunks_sent := chunks_sent |}
  else
    {| full_response := full_response; sentence_buffer := sentence_buffer st;
       is_search := is_search st; search_detected := search_detected st;
       sentences_queue := sentences_queue st; chunks_sent := chunks_sent |}.

(** The final fragment pushed by both [finally] blocks. *)
Definition flush_fragment (sentence_buffer : str) (q : queue) : queue :=
  if nonempty (strip sentence_buffer)
  then put_if_nonempty q (clean_for_tts (strip sentence_buffer))
  else q.

(** The [finally] block of [run.llm_producer]. *)
Definition producer_finally (st : producer_state) : producer_state :=
  let q :=
    if negb (is_search st) then flush_fragment (sentence_buffer st) (sentences_queue st)
    else sentences_queue st in
  {| full_response := full_response st; sentence_buffer := sentence_buffer st;
     is_search := is_search st; search_detected := true;
     sentences_queue := put_nowait q None; chunks_sent := chunks_sent st |}.

(** [run.llm_producer] on the contents yielded by the token stream. *)
Definition llm_producer (tokens : list str) : producer_state :=
  producer_finally (fold_left producer_step tokens producer_init).

(** [run.tts_consumer]: [cancelled] is [cancel_event.is_set()] once
    [search_detected] has fired. *)
Definition tts_consumer (is_search cancelled : bool) (tts_ws : synthesis)
  : nat * list event :=
  if is_search || cancelled then (0, []) else stream_to_client tts_ws.

(** Body of the loop of [_search_llm_tts.llm_producer]: every content is
    buffered and segmented. *)
Definition search_producer_step (st : producer_state) (content : str)
  : producer_state :=
  let '(sentence_buffer, q) :=
    extract_sentences (sentence_buffer st ++ content) (sentences_queue st) in
  {| full_response := full_response st ++ content; sentence_buffer := sentence_buffer;
     is_search := is_search st; search_detected := search_detected st;
     sentences_queue := q; chunks_sent := chunks_sent st ++ [llm_chunk content] |}.

Definition search_llm_producer (tokens : list str) : producer_state :=
  let st := fold_left search_producer_step tokens producer_init in
  {| full_response := full_response st; sentence_buffer := sentence_buffer st;
     is_search := is_search st; search_detected := search_detected st;
     sentences_queue :=
       put_nowait (flush_fragment (sentence_buffer st) (sentences_queue st)) None;
     chunks_sent := chunks_sent st |}.

(** ** config.py: the Conversation Record *)

Inductive role_name : Type := System | User | Assistant.

Definition role_eqb (a b : role_name) : bool :=
  match a, b with
  | System, System | User, User | Assistant, Assistant => true
  | _, _ => false
  end.

Record message : Type := { role : role_name; content : str }.

(** The loop of [sanitize_history] from index [i]: [cur] is
    [conversation_history[i]] and [rest] the entries after it.  Merging pops
    entry [i + 1] and stays at [i]; otherwise [i] advances. *)
Fixpoint merge_from (cur : message) (rest : list message) : list message :=
  match rest with
  | [] => [cur]
  | next :: rest' =>
      if role_eqb (role cur) (role next)
      then merge_from {| role := role cur;
                         content := content cur ++ py " " ++ content next |} rest'
      else cur :: merge_from next rest'
  end.

Definition sanitize (history : list message) : list message :=
  match history with
  | m0 :: m1 :: rest => m0 :: merge_from m1 rest
  | _ => history
  end.

(** ** Operations on the shared record

    [conversation_history] is one module-level list, mutated in place; code
    that uses it is written in a state monad over the list, with the
    exceptions of Python. *)

Definition M (A : Type) : Type := list message -> result A * list message.

Definition ret {A : Type} (a : A) : M A := fun h => (Returns a, h).

Definition bindM {A B : Type} (m : M A) (k : A -> M B) : M B :=
  fun h =>
    match m h with
    | (Returns a, h') => k a h'
    | (Raises e, h') => (Raises e, h')
    end.

Notation "'let*' x ':=' m 'in' k" := (bindM m (fun x => k))
  (at level 10, x name, m at level 200, k at level 200).
Notation "m >> k" := (bindM m (fun _ => k))
  (at level 100, right associativity).

Definition lift {A : Type} (r : result A) : M A := fun h => (r, h).

Definition get_history : M (list message) := fun h => (Returns h, h).

Definition sanitize_history : M unit := fun h => (Returns tt, sanitize h).

(** [conversation_history.append(m)] *)
Definition append (m : message) : M unit := fun h => (Returns tt, h ++ [m]).

(** [conversation_history.pop()]; an empty list raises [IndexError]. *)
Definition pop : M unit :=
  fun h =>
    match h with
    | [] => (Raises (Exception (py "pop from empty list")), h)
    | _ => (Returns tt, removelast h)
    end.

(** ** pipeline.py: the directive pattern *)

(** [.*?\]] read lazily: the code points before the first closing bracket,
    none of which may be a newline. *)
Fixpoint until_bracket (s : str) : option str :=
  match s with
  | [] => None
  | c :: s' =>
      if (c =? 93)%N then Some []
      else if (c =? 10)%N then None
      else (c ::.) <$> until_bracket s'
  end.

(** [(.+?)\]]: the group holds at least one code point. *)
Definition directive_group (s : str) : option str :=
  match s with
  | [] => None
  | c :: s' => if (c =? 10)%N then None else (c ::.) <$> until_bracket s'
  end.

(** [\s*(.+?)\]] with the backtracking of the greedy [\s*]: [k]
    whitespace code points are skipped first, then fewer. *)
Fixpoint directive_after (k : nat) (s : str) : option str :=
  match directive_group (drop k s) with
  | Some g => Some g
  | None =>
      match k with
      | 0 => None
      | S k' => directive_after k' s
      end
  end.

(** [re.search(r'\[SEARCH:\s*(.+?)\]', text)]: [group(1)] of the leftmost
    match. *)
Fixpoint SEARCH_directive (text : str) : option str :=
  let here :=
    if starts_with SEARCH_MARKER text
    then directive_after (ws_run (drop 8 text)) (drop 8 text)
    else None in
  match here with
  | Some g => Some g
  | None =>
      match text with
      | [] => None
      | _ :: text' => SEARCH_directive text'
      end
  end.

(** ** pipeline.py: one turn *)

(** What the collaborators and the cancel event do during one turn. *)
Record turn_env : Type := {
  (** contents yielded by [llm.stream_tokens] for the messages it is given *)
  llm_tokens : list message -> list str;
  tts_first_leg : synthesis;
  tts_second_leg : synthesis;
  ddgs_speculative : provider;
  ddgs_fresh : provider;
  (** [asyncio.wait_for(speculative_search_task, timeout=5.0)] times out *)
  speculative_timed_out : bool;
  (** [cancel_event.is_set()] at the successive checks of [run] *)
  cancelled_at_consumer : bool;
  cancelled_after_gather : bool;
  cancelled_after_search : bool;
  cancelled_after_second_leg : bool;
  cancelled_at_finish : bool
}.

Inductive outcome : Type := Cancelled | NoSpeakableText | Committed.

Record report : Type := {
  result_of : outcome;
  (** [full_response] when [run] returns *)
  response : str;
  (** the message lists handed to the generation collaborator, in order *)
  rounds : list (list message);
  (** the [audio_chunk] events of the legs, in order *)
  audio : list event
}.

Definition search_prompt (search_query search_results : str) : str :=
  py "Here are the web search results for '" ++ search_query ++ py "':"
  ++ [10; 10]%N ++ search_results ++ [10; 10]%N
  ++ py "Synthesize a comprehensive and natural answer for speaking aloud. "
  ++ py "Do NOT say 'Here is what I found'. Just give the detailed answer.".

Section Pipeline.

Variable lower : str -> str.

(** Text of the fixed system message. *)
Variable SYSTEM_PROMPT : str.

Definition conversation_history : list message :=
  [ {| role := System; content := SYSTEM_PROMPT |} ].

(** The part of [run] under the comment "Finish up". *)
Definition finish (env : turn_env) (full_response : str)
    (rounds : list (list message)) (audio : list event) : M report :=
  if cancelled_at_finish env then
    pop >> ret {| result_of := Cancelled; response := full_response;
                  rounds := rounds; audio := audio |}
  else if negb (nonempty full_response) then
    pop >> ret {| result_of := NoSpeakableText; response := full_response;
                  rounds := rounds; audio := audio |}
  else
    append {| role := Assistant; content := full_response |} >>
    ret {| result_of := Committed; response := full_response;
           rounds := rounds; audio := audio |}.

(** The search results of the search branch: the speculative result when
    the queries are similar enough and the task answers in time, a fresh
    search with the model's query otherwise.  [similarity >= 0.4] is decided
    on the exact quotient: rounding to the nearest [float] is monotone and
    sends 2/5 to the literal, and a quotient of two word counts below 2/5
    is too far from it to round to the same [float]. *)
Definition resolve_search (env : turn_env) (clean_query search_query : str)
  : result str :=
  let similarity := query_similarity lower clean_query search_query in
  if Qle_bool (4 # 10) similarity then
    let speculative :=
      if speculative_timed_out env then Raises (Exception (py "TimeoutError"))
      else web_search (ddgs_speculative env) clean_query 3 in
    match speculative with
    | Returns search_results => Returns search_results
    | Raises _ => web_search (ddgs_fresh env) search_query 3
    end
  else web_search (ddgs_fresh env) search_query 3.

(** [run], followed from its first statement to one of its [return]s,
    every [await] on the way completing.  The turn that ends at an [await]
    instead is [run_task] below. *)
Definition run (env : turn_env) (transcript : str) : M report :=
  sanitize_history >>
  append {| role := User; content := transcript |} >>
  let* messages := get_history in
  let p := llm_producer (llm_tokens env messages) in
  let audio1 :=
    snd (tts_consumer (is_search p) (cancelled_at_consumer env)
           (tts_first_leg env)) in
  let clean_query := clean_for_search lower transcript in
  if cancelled_after_gather env then
    pop >> ret {| result_of := Cancelled; response := full_response p;
                  rounds := [messages]; audio := audio1 |}
  else if is_search p then
    match SEARCH_directive (full_response p) with
    | Some g =>
        let search_query := strip g in
        let* search_results :=
          lift (resolve_search env clean_query search_query) in
        if cancelled_after_search env then
          pop >> ret {| result_of := Cancelled; response := full_response p;
                        rounds := [messages]; audio := audio1 |}
        else
          append {| role := Assistant; content := full_response p |} >>
          append {| role := User;
                    content := search_prompt search_query search_results |} >>
          let* messages2 := get_history in
          let p2 := search_llm_producer (llm_tokens env messages2) in
          let audio2 := snd (stream_to_client (tts_second_leg env)) in
          pop >> pop >>
          if cancelled_after_second_leg env then
            pop >> ret {| result_of := Cancelled; response := full_response p2;
                          rounds := [messages; messages2];
                          audio := audio1 ++ audio2 |}
          else
            finish env (full_response p2) [messages; messages2]
              (audio1 ++ audio2)
    | None => finish env (full_response p) [messages] audio1
    end
  else finish env (full_response p) [messages] audio1.

End Pipeline.

(** ** pipeline.py and server.py: a turn cut short at an [await]

    [run] above follows a turn to one of its [return]s.  The task that runs
    it can also end at one of its [await]s: [do_llm_tts] cancels a task that
    is still running three seconds after the cancel event was set
    ([asyncio.wait_for(current_task, timeout=3.0)], then
    [current_task.cancel()]), which raises [CancelledError] at the [await]
    the task is suspended on, and [websocket.send_text] raises once the
    browser is gone.  No [try] of [run] encloses its appends, and the
    wrapper of the task in [do_llm_tts] only logs what it catches: the
    record stays as it stands at that [await]. *)

(** The [await]s of [run], in the order of its text. *)
Inductive await_point : Type :=
| send_tts_start          (** the send that follows the first append *)
| gather_first_leg        (** [asyncio.gather(llm_producer(), tts_consumer())] *)
| send_search_start       (** the two sends that announce the search *)
| wait_search_results     (** [asyncio.wait_for] and [asyncio.to_thread] *)
| send_search_audio_done
| second_leg              (** the sends, the sleep and [_search_llm_tts] *)
| send_llm_done
| send_tts_done.

(** [await] at point [p]: [interrupt p] tells whether the exception is
    raised into the task there. *)
Definition await (interrupt : await_point -> bool) (p : await_point) : M unit :=
  fun h =>
    if interrupt p then (Raises (Exception (py "CancelledError")), h)
    else (Returns tt, h).

(** No [await] of the turn is interrupted. *)
Definition uninterrupted : await_point -> bool := fun _ => false.

Section Task.

Variable lower : str -> str.

Variable interrupt : await_point -> bool.

(** The part of [run] under the comment "Finish up", with its [await]s. *)
Definition finish_task (env : turn_env) (full_response : str)
    (rounds : list (list message)) (audio : list event) : M report :=
  await interrupt send_llm_done >>
  if cancelled_at_finish env then
    pop >> ret {| result_of := Cancelled; response := full_response;
                  rounds := rounds; audio := audio |}
  else if negb (nonempty full_response) then
    pop >> ret {| result_of := NoSpeakableText; response := full_response;
                  rounds := rounds; audio := audio |}
  else
    append {| role := Assistant; content := full_response |} >>
    await interrupt send_tts_done >>
    ret {| result_of := Committed; response := full_response;
           rounds := rounds; audio := audio |}.

(** [run] with its [await]s: the value is [Raises] when the task ends at
    one of them, and the record returned with it is the one the task
    leaves, [do_llm_tts] catching the exception. *)
Definition run_task (env : turn_env) (transcript : str) : M report :=
  sanitize_history >>
  append {| role := User; content := transcript |} >>
  await interrupt send_tts_start >>
  let* messages := get_history in
  let p := llm_producer (llm_tokens env messages) in
  let audio1 :=
    snd (tts_consumer (is_search p) (cancelled_at_consumer env)
           (tts_first_leg env)) in
  let clean_query := clean_for_search lower transcript in
  await interrupt gather_first_leg >>
  if cancelled_after_gather env then
    pop >> ret {| result_of := Cancelled; response := full_response p;
                  rounds := [messages]; audio := audio1 |}
  else if is_search p then
    match SEARCH_directive (full_response p) with
    | Some g =>
        let search_query := strip g in
        await interrupt send_search_start >>
        await interrupt wait_search_results >>
        let* search_results :=
          lift (resolve_search lower env clean_query search_query) in
        if cancelled_after_search env then
          pop >> ret {| result_of := Cancelled; response := full_response p;
                        rounds := [messages]; audio := audio1 |}
        else
          await interrupt send_search_audio_done >>
          append {| role := Assistant; content := full_response p |} >>
          append {| role := User;
                    content := search_prompt search_query search_results |} >>
          let* messages2 := get_history in
          await interrupt second_leg >>
          let p2 := search_llm_producer (llm_tokens env messages2) in
          let audio2 := snd (stream_to_client (tts_second_leg env)) in
          pop >> pop >>
          if cancelled_after_second_leg env then
            pop >> ret {| result_of := Cancelled; response := full_response p2;
                          rounds := [messages; messages2];
                          audio := audio1 ++ audio2 |}
          else
            finish_task env (full_response p2) [messages; messages2]
              (audio1 ++ audio2)
    | None => finish_task env (full_response p) [messages] audio1
    end
  else finish_task env (full_response p) [messages] audio1.

End Task.

(** ** The segmenter fed in one shot and in chunks *)

(** [extract_sentences] followed by the final flush of the [finally] block. *)
Definition drain (buffer : str) (q : queue) : queue :=
  let '(remainder, q') := extract_sentences buffer q in
  flush_fragment remainder q'.

Definition one_shot (text : str) : queue := drain text [].

(** One call per chunk, each starting from the remainder of the previous
    call with the chunk appended. *)
Definition feed (st : str * queue) (chunk : str) : str * queue :=
  extract_sentences (fst st ++ chunk) (snd st).

Definition incremental (chunks : list str) : queue :=
  let st := fold_left feed chunks ([], []) in
  flush_fragment (fst st) (snd st).

(** The fragments of a queue, as a set. *)
Definition fragment_set (q : queue) : gset str := list_to_set (omap id q).

(** The terminator pattern read code point by code point: a match starts at
    index [i] when a newline stands there, or one of [. ! ? ;] followed by a
    whitespace code point. *)
Definition matches_at (b : str) (i : nat) : Prop :=
  b !! i = Some 10%N
  \/ exists c d, b !! i = Some c /\ is_terminator c = true
                /\ b !! S i = Some d /\ is_space d = true.

(** ** llm.py: the token stream *)

(** What [json.loads(line[6:])] and the lookup
    [chunk["choices"][0].get("delta", {}).get("content", "")] give for the
    payload of one line: a content, one of the three exceptions the inner
    [except] clause skips, or another exception, which ends the stream in
    the outer [except] clause. *)
Inductive decoded : Type :=
| Content (content : str)
| Skipped
| Failed.

(** The answer of the generation service: its status code and the lines
    [aiter_lines] delivers, each paired with [cancel_event.is_set()] when the
    loop examines it. *)
Record http_response : Type := {
  status_code : nat;
  lines : list (bool * str)
}.

Section TokenStream.

(** JSON decoding is the library's; the stream is stated for any decoder. *)
Variable json_content : str -> decoded.

(** The loop [async for line in response.aiter_lines()], as the list of the
    contents it yields. *)
Fixpoint token_loop (lines : list (bool * str)) : list str :=
  match lines with
  | [] => []
  | (cancelled, line) :: rest =>
      if cancelled then []
      else if negb (starts_with (py "data: ") line) then token_loop rest
      else if str_eqb line (py "data: [DONE]") then []
      else
        match json_content (drop 6 line) with
        | Content content =>
            if nonempty content then content :: token_loop rest
            else token_loop rest
        | Skipped => token_loop rest
        | Failed => []
        end
  end.

(** [stream_tokens]: a request that raises, or a status other than 200,
    yields nothing. *)
Definition stream_tokens (response : result http_response) : list str :=
  match response with
  | Raises _ => []
  | Returns r => if status_code r =? 200 then token_loop (lines r) else []
  end.

End TokenStream.

(** ** tts.py: the feeder *)

(** Calls made on the synthesis socket. *)
Inductive tts_action : Type :=
| convert (text : str)
| flush.

(** One iteration of the feeder, as the environment decides it: the cancel
    signal at the top of the loop, whether [sentences_queue.get()] runs into
    the 0.5 s timeout, and the cancel signal after an item was taken. *)
Record poll : Type := {
  cancelled_before : bool;
  timed_out : bool;
  cancelled_after : bool
}.

(** The loop of [feeder] over the items the producer queues: the calls made
    on the socket, and whether the loop was left.  An empty queue makes the
    wait time out.  When the polls run out the feeder is still waiting. *)
Fixpoint feeder (polls : list poll) (q : queue) : list tts_action * bool :=
  match polls with
  | [] => ([], false)
  | p :: polls' =>
      if cancelled_before p then ([flush], true)
      else if timed_out p then feeder polls' q
      else
        match q with
        | [] => feeder polls' q
        | None :: _ => ([flush], true)
        | Some sentence :: q' =>
            if cancelled_after p then ([flush], true)
            else
              let '(actions, stopped) := feeder polls' q' in
              (convert (sentence ++ py " ") :: actions, stopped)
        end
  end.

(** ** server.py: one browser session *)

(** What reaches the session: the decoded messages of the browser, by their
    ["type"]; a transcript delivered by the recognition listener; the end of
    the pipeline task of the live turn. *)
Inductive session_input : Type :=
| browser_audio_chunk (data : str) (send_ok : bool)
| user_stopped_speaking
| barge_in
| browser_other
| stt_transcript (text : str)
| stt_connected
| stt_closed
| task_finished.

(** Events the session itself sends to the browser. *)
Inductive session_event : Type :=
| final_transcript (text : str)
| transcript_event (text : str)
| stop_audio.

(** One turn started by [do_llm_tts]: the transcript given to
    [pipeline.run], and whether the [cancel_event] created for it is set. *)
Record turn : Type := {
  utterance : str;
  cancel_is_set : bool
}.

Record session : Type := {
  (** the turns started, the live one last *)
  turns : list turn;
  (** [current_task and not current_task.done()] *)
  task_running : bool;
  ai_speaking : bool;
  current_utterance : list str;
  connected : bool;
  (** audio forwarded to the recognition socket *)
  forwarded : list str;
  outbox : list session_event
}.

Definition session_start : session :=
  {| turns := []; task_running := false; ai_speaking := false;
     current_utterance := []; connected := false; forwarded := [];
     outbox := [] |}.

(** [cancel_event.is_set()] for the current event; the event created with
    the session is never set, since [ai_speaking] is false until a turn
    starts. *)
Definition cancel_event_is_set (s : session) : bool :=
  match last (turns s) with
  | Some t => cancel_is_set t
  | None => false
  end.

(** [cancel_event.set()] on the event of the live turn. *)
Definition set_cancel (ts : list turn) : list turn :=
  match ts with
  | [] => []
  | _ => removelast ts
         ++ match last ts with
            | Some t => [ {| utterance := utterance t; cancel_is_set := true |} ]
            | None => []
            end
  end.

(** [do_llm_tts]: a task still running is cancelled and awaited, which also
    runs its [finally] block; then a fresh cancel event and a new task. *)
Definition do_llm_tts (transcript : str) (s : session) : session :=
  let ts := if task_running s then set_cancel (turns s) else turns s in
  {| turns := ts ++ [ {| utterance := transcript; cancel_is_set := false |} ];
     task_running := true; ai_speaking := true;
     current_utterance := current_utterance s; connected := connected s;
     forwarded := forwarded s; outbox := outbox s |}.

(** One message of [browser_handler], one call of [on_transcript], or the
    end of the running task. *)
Definition handle (s : session) (i : session_input) : session :=
  match i with
  | browser_audio_chunk data send_ok =>
      if connected s then
        if send_ok then
          {| turns := turns s; task_running := task_running s;
             ai_speaking := ai_speaking s;
             current_utterance := current_utterance s; connected := true;
             forwarded := forwarded s ++ [data]; outbox := outbox s |}
        else
          {| turns := turns s; task_running := task_running s;
             ai_speaking := ai_speaking s;
             current_utterance := current_utterance s; connected := false;
             forwarded := forwarded s; outbox := outbox s |}
      else s
  | user_stopped_speaking =>
      let transcript := strip (join_space (current_utterance s)) in
      let s' :=
        {| turns := turns s; task_running := task_running s;
           ai_speaking := ai_speaking s; current_utterance := [];
           connected := connected s; forwarded := forwarded s;
           outbox := if nonempty transcript
                     then outbox s ++ [final_transcript transcript]
                     else outbox s |} in
      if nonempty transcript then do_llm_tts transcript s' else s'
  | barge_in =>
      if ai_speaking s && negb (cancel_event_is_set s) then
        {| turns := set_cancel (turns s); task_running := task_running s;
           ai_speaking := false; current_utterance := current_utterance s;
           connected := connected s; forwarded := forwarded s;
           outbox := outbox s ++ [stop_audio] |}
      else s
  | browser_other => s
  | stt_transcript text =>
      {| turns := turns s; task_running := task_running s;
         ai_speaking := ai_speaking s;
         current_utterance := current_utterance s ++ [text];
         connected := connected s; forwarded := forwarded s;
         outbox := outbox s ++ [transcript_event text] |}
  | stt_connected =>
      {| turns := turns s; task_running := task_running s;
         ai_speaking := ai_speaking s;
         current_utterance := current_utterance s; connected := true;
         forwarded := forwarded s; outbox := outbox s |}
  | stt_closed =>
      {| turns := turns s; task_running := task_running s;
         ai_speaking := ai_speaking s;
         current_utterance := current_utterance s; connected := false;
         forwarded := forwarded s; outbox := outbox s |}
  | task_finished =>
      if task_running s then
        {| turns := turns s; task_running := false; ai_speaking := false;
           current_utterance := current_utterance s; connected := connected s;
           forwarded := forwarded s; outbox := outbox s |}
      else s
  end.

(** The session after a sequence of inputs. *)
Definition serve (inputs : list session_input) : session :=
  fold_left handle inputs session_start.

(** ** Notions used by the properties *)

(** The audio payloads the synthesis socket delivers, in order. *)
Definition incoming_audio (incoming : list (bool * tts_message)) : list str :=
  omap (fun '(_, message) =>
          match message with
          | AudioOutput audio => Some audio
          | _ => None
          end) incoming.

(** No transition of the search decision fires on [text]. *)
Definition undecided (text : str) : Prop :=
  contains SEARCH_MARKER text = false
  /\ length text <= 80
  /\ SENTENCE_END_search text = None.

Definition flip (r : role_name) : role_name :=
  match r with
  | User => Assistant
  | _ => User
  end.

(** The roles of [l] alternate, starting with [expected]. *)
Fixpoint alternates (expected : role_name) (l : list message) : bool :=
  match l with
  | [] => true
  | m :: l' => role_eqb (role m) expected && alternates (flip expected) l'
  end.

(** The fixed system message, then user and assistant in strict
    alternation. *)
Definition alternation_invariant (SYSTEM_PROMPT : str) (h : list message) : Prop :=
  exists rest,
    h = {| role := System; content := SYSTEM_PROMPT |} :: rest
    /\ alternates User rest = true.

(** The turn step relation on the record: [h'] is what a turn started on
    [h] leaves, for some utterance, some behaviour of the collaborators and
    of the cancel event, and whether it returns or ends at an [await]. *)
Definition turn_step (lower : str -> str) (h h' : list message) : Prop :=
  exists interrupt env transcript,
    h' = snd (run_task lower interrupt env transcript h).

(** The states of the record between turns. *)
Inductive reachable (lower : str -> str) (SYSTEM_PROMPT : str)
  : list message -> Prop :=
| reachable_start :
    reachable lower SYSTEM_PROMPT (conversation_history SYSTEM_PROMPT)
| reachable_turn h h' :
    reachable lower SYSTEM_PROMPT h ->
    turn_step lower h h' ->
    reachable lower SYSTEM_PROMPT h'.

(** The invariant that turns which return preserve: after the system
    message come (user, assistant) pairs. *)
Definition settled (SYSTEM_PROMPT : str) (h : list message) : Prop :=
  exists rest,
    h = {| role := System; content := SYSTEM_PROMPT |} :: rest
    /\ alternates User rest = true
    /\ Nat.even (length rest) = true.

(** What every turn preserves, the ones cut short included: after the
    system message come user and assistant messages only, a user message
    first. *)
Definition dialogue (SYSTEM_PROMPT : str) (h : list message) : Prop :=
  exists rest,
    h = {| role := System; content := SYSTEM_PROMPT |} :: rest
    /\ Forall (fun m => role m <> System) rest
    /\ role <$> head rest <> Some Assistant.

(** No two neighbours of [l] have the same role. *)
Fixpoint adjacent_distinct (l : list message) : bool :=
  match l with
  | m1 :: ((m2 :: _) as l') =>
      negb (role_eqb (role m1) (role m2)) && adjacent_distinct l'
  | _ => true
  end.

(** A transition of the search decision fires on [text]. *)
Definition decided (text : str) : bool :=
  contains SEARCH_MARKER text
  || (80 <? length text)
  || bool_decide (is_Some (SENTENCE_END_search text)).

(** The markup code points [clean_for_tts] deletes. *)
Definition is_markup (c : char) : bool :=
  (c =? 42)%N || (c =? 35)%N || (c =? 96)%N.

(** A fragment as the segmenter queues it: not empty, and unchanged by
    another cleaning. *)
Definition speakable (f : str) : Prop :=
  nonempty f = true /\ clean_for_tts f = f.

(** A queue that holds fragments only. *)
Definition fragments_only (q : queue) : Prop :=
  exists frs, q = Some <$> frs /\ Forall speakable frs.

(** Once the decision is search-needed, nothing of the leg is queued. *)
Definition search_leg_silent (st : producer_state) : Prop :=
  (search_detected st = false ->
     is_search st = false /\ sentences_queue st = [])
  /\ (is_search st = true ->
        sentences_queue st = []
        /\ contains SEARCH_MARKER (full_response st) = true).

(** The polls of the feeder on which the wait does not time out. *)
Definition answered (polls : list poll) : nat :=
  length (List.filter (fun p => negb (timed_out p)) polls).

(** The [stop_audio] events of an outbox, counted. *)
Definition stop_count (events : list session_event) : nat :=
  length (List.filter (fun e => match e with stop_audio => true | _ => false end)
            events).

(** The texts of the [final_transcript] events of an outbox, in order. *)
Definition announced (events : list session_event) : list str :=
  omap (fun e => match e with final_transcript text => Some text | _ => None end)
       events.

(** ** Sample turns *)

Definition silent_socket : synthesis := {| connects := true; incoming := [] |}.

Definition offline : provider := fun _ _ => Raises (Exception (py "offline")).

(** A turn in which the model answers directly and nothing is cancelled. *)
Definition direct_turn : turn_env :=
  {| llm_tokens := fun _ => [py "Hi there. "; py "How are you?"];
     tts_first_leg := silent_socket; tts_second_leg := silent_socket;
     ddgs_speculative := offline; ddgs_fresh := offline;
     speculative_timed_out := false;
     cancelled_at_consumer := false; cancelled_after_gather := false;
     cancelled_after_search := false; cancelled_after_second_leg := false;
     cancelled_at_finish := false |}.

(** A turn in which the generation collaborator yields nothing. *)
Definition silent_turn : turn_env :=
  {| llm_tokens := fun _ => [];
     tts_first_leg := silent_socket; tts_second_leg := silent_socket;
     ddgs_speculative := offline; ddgs_fresh := offline;
     speculative_timed_out := false;
     cancelled_at_consumer := false; cancelled_after_gather := false;
     cancelled_after_search := false; cancelled_after_second_leg := false;
     cancelled_at_finish := false |}.

(** A turn in which the model asks for a search while the provider is
    down, and answers once it is given the results. *)
Definition search_turn : turn_env :=
  {| llm_tokens := fun messages =>
       if length messages =? 2 then [py "[SEARCH: Mumbai weather today]"]
       else [py "I could not reach the web."];
     tts_first_leg := silent_socket; tts_second_leg := silent_socket;
     ddgs_speculative := offline; ddgs_fresh := offline;
     speculative_timed_out := false;
     cancelled_at_consumer := false; cancelled_after_gather := false;
     cancelled_after_search := false; cancelled_after_second_leg := false;
     cancelled_at_finish := false |}.

(** A provider that answers every query with one hit. *)
Definition one_hit : provider :=
  fun _ _ => Returns [ {[ py "title" := py "Mumbai"; py "body" := py "Sunny" ]} ].

(** The same turn while the speculative search fails and a fresh search
    would succeed. *)
Definition search_turn_fresh_up : turn_env :=
  {| llm_tokens := llm_tokens search_turn;
     tts_first_leg := silent_socket; tts_second_leg := silent_socket;
     ddgs_speculative := offline; ddgs_fresh := one_hit;
     speculative_timed_out := false;
     cancelled_at_consumer := false; cancelled_after_gather := false;
     cancelled_after_search := false; cancelled_after_second_leg := false;
     cancelled_at_finish := false |}.

(** The task is cancelled while it awaits its first leg. *)
Definition cancelled_in_first_leg : await_point -> bool :=
  fun p => match p with gather_first_leg => true | _ => false end.

(** A decoder for the sample streams: the payload is the content. *)
Definition plain_content (payload : str) : decoded := Content payload.

(** A stripped, non-empty transcript, as the session hands them on. *)
Definition dispatchable (t : turn) : Prop :=
  nonempty (utterance t) = true /\ strip (utterance t) = utterance t.

(** The turns whose cancel event is set, counted. *)
Definition cancelled_count (ts : list turn) : nat :=
  length (List.filter cancel_is_set ts).

(** The invariant behind the count of [stop_audio] events. *)
Definition barge_in_invariant (s : session) : Prop :=
  stop_count (outbox s) <= cancelled_count (turns s)
  /\ (ai_speaking s = true -> turns s <> []).

(** A word of [str.split]: not empty, and free of whitespace. *)
Definition is_word (w : str) : bool :=
  nonempty w && forallb (fun c => negb (is_space c)) w.

(** * Properties *)

(** ** Strings *)

Lemma terminator_not_space c : is_terminator c = true -> is_space c = false.
Proof.
  unfold is_terminator. rewrite !orb_true_iff, !N.eqb_eq.
  intros [[[-> | ->] | ->] | ->]; reflexivity.
Qed.

Lemma space_not_terminator c : is_space c = true -> is_terminator c = false.
Proof.
  intros Hs. destruct (is_terminator c) eqn:Ht; [|reflexivity].
  apply terminator_not_space in Ht. congruence.
Qed.

Lemma rstrip_by_all p w : forallb p w = true -> rstrip_by p w = [].
Proof.
  induction w as [|c w IH]; simpl; [reflexivity|].
  intros [Hc Hw]%andb_true_iff. rewrite (IH Hw), Hc. reflexivity.
Qed.

Lemma rstrip_by_app_all p s w :
  forallb p w = true -> rstrip_by p (s ++ w) = rstrip_by p s.
Proof.
  intros Hw. induction s as [|c s IH]; simpl.
  - apply rstrip_by_all, Hw.
  - rewrite IH. reflexivity.
Qed.

Lemma strip_by_app_all p s w :
  forallb p w = true -> strip_by p (s ++ w) = strip_by p s.
Proof. intros Hw. unfold strip_by. rewrite rstrip_by_app_all; auto. Qed.

Lemma strip_by_cons p c s : p c = true -> strip_by p (c :: s) = strip_by p s.
Proof.
  intros Hc. unfold strip_by. simpl.
  destruct (rstrip_by p s) as [|d r] eqn:E.
  - rewrite Hc. reflexivity.
  - simpl. rewrite Hc. reflexivity.
Qed.

Lemma strip_cons_space c s : is_space c = true -> strip (c :: s) = strip s.
Proof. apply strip_by_cons. Qed.

Lemma strip_app_spaces s w :
  forallb is_space w = true -> strip (s ++ w) = strip s.
Proof. apply strip_by_app_all. Qed.

Lemma ws_run_le s : ws_run s <= length s.
Proof. induction s as [|c s IH]; simpl; [lia|]. destruct (is_space c); simpl; lia. Qed.

Lemma ws_run_spaces s : forallb is_space (take (ws_run s) s) = true.
Proof.
  induction s as [|c s IH]; simpl; [reflexivity|].
  destruct (is_space c) eqn:E; simpl; [|reflexivity]. rewrite E, IH. reflexivity.
Qed.

Lemma ws_run_app s t :
  ws_run (s ++ t) = if ws_run s =? length s then length s + ws_run t else ws_run s.
Proof.
  induction s as [|c s IH]; simpl; [reflexivity|].
  destruct (is_space c); [|reflexivity].
  rewrite IH. change (S (ws_run s) =? S (length s)) with (ws_run s =? length s).
  destruct (ws_run s =? length s); reflexivity.
Qed.

(** ** The terminator pattern *)

Lemma SENTENCE_END_search_bounds b e :
  SENTENCE_END_search b = Some e -> 1 <= e <= length b.
Proof.
  revert e. induction b as [|c b IH]; intros e; simpl; [discriminate|].
  destruct (is_terminator c && (0 <? ws_run b)).
  - intros [= <-]. pose proof (ws_run_le b). lia.
  - destruct (c =? 10)%N.
    + intros [= <-]. lia.
    + destruct (SENTENCE_END_search b) as [e0|]; simpl; [|discriminate].
      intros [= <-]. specialize (IH e0 eq_refl). lia.
Qed.

(** A match found in [x] is found at the same place in [x ++ y]; only a
    whitespace run that reaches the end of [x] is prolonged into [y]. *)
Lemma SENTENCE_END_search_app x y e :
  SENTENCE_END_search x = Some e ->
  SENTENCE_END_search (x ++ y) = Some e
  \/ (e = length x /\ SENTENCE_END_search (x ++ y) = Some (length x + ws_run y)).
Proof.
  revert e. induction x as [|c x IH]; intros e; simpl; [discriminate|].
  rewrite ws_run_app.
  destruct (is_terminator c) eqn:Ht; simpl.
  - destruct (0 <? ws_run x) eqn:Hrun.
    + intros [= <-]. apply Nat.ltb_lt in Hrun.
      destruct (ws_run x =? length x) eqn:Hfull.
      * apply Nat.eqb_eq in Hfull.
        replace (0 <? length x + ws_run y) with true
          by (symmetry; apply Nat.ltb_lt; lia).
        right. split; [lia|]. reflexivity.
      * rewrite (proj2 (Nat.ltb_lt _ _) Hrun). left. reflexivity.
    + apply Nat.ltb_ge in Hrun.
      destruct (c =? 10)%N; [intros [= <-]|].
      * destruct (ws_run x =? length x) eqn:Hfull.
        -- apply Nat.eqb_eq in Hfull.
           assert (x = []) as -> by (destruct x; [reflexivity|simpl in *; lia]).
           simpl. destruct (0 <? ws_run y) eqn:Hy.
           ++ right. split; reflexivity.
           ++ apply Nat.ltb_ge in Hy. right. split; [reflexivity|].
              f_equal. lia.
        -- replace (0 <? ws_run x) with false by (symmetry; apply Nat.ltb_ge; lia).
           left. reflexivity.
      * destruct (SENTENCE_END_search x) as [e0|] eqn:Hx; simpl; [|discriminate].
        intros [= <-].
        assert ((ws_run x =? length x) = false) as ->.
        { apply Nat.eqb_neq. apply SENTENCE_END_search_bounds in Hx. lia. }
        replace (0 <? ws_run x) with false by (symmetry; apply Nat.ltb_ge; lia).
        destruct (IH e0 eq_refl) as [-> | [-> ->]]; simpl.
        -- left. reflexivity.
        -- right. split; reflexivity.
  - destruct (c =? 10)%N; [intros [= <-]; left; reflexivity|].
    destruct (SENTENCE_END_search x) as [e0|] eqn:Hx; simpl; [|discriminate].
    intros [= <-].
    destruct (IH e0 eq_refl) as [-> | [-> ->]]; simpl.
    + left. reflexivity.
    + right. split; reflexivity.
Qed.

Lemma ws_run_pos_head b :
  0 < ws_run b <-> exists d, b !! 0 = Some d /\ is_space d = true.
Proof.
  destruct b as [|d b]; simpl.
  - split; [lia|]. intros (d & Hd & _). discriminate.
  - destruct (is_space d) eqn:E; split.
    + intros _. exists d. auto.
    + intros _. lia.
    + lia.
    + intros (d' & [= <-] & Hd). congruence.
Qed.

Lemma SENTENCE_END_search_None b :
  SENTENCE_END_search b = None <-> forall i, ~ matches_at b i.
Proof.
  induction b as [|c b IH]; simpl.
  - split; [|reflexivity]. intros _ i [H | (c & d & H & _)]; discriminate.
  - destruct (is_terminator c && (0 <? ws_run b)) eqn:Hfirst.
    + split; [discriminate|]. intros Hno. exfalso.
      apply andb_true_iff in Hfirst as [Ht Hrun]. apply Nat.ltb_lt in Hrun.
      apply ws_run_pos_head in Hrun as (d & Hd & Hsp).
      apply (Hno 0). right. exists c, d. auto.
    + destruct (c =? 10)%N eqn:Hnl.
      * split; [discriminate|]. intros Hno. exfalso.
        apply N.eqb_eq in Hnl as ->. apply (Hno 0). left. reflexivity.
      * apply N.eqb_neq in Hnl.
        destruct (SENTENCE_END_search b) as [e|]; simpl.
        -- split; [discriminate|]. intros Hno. exfalso.
           assert (Some e = None) as [=]. apply IH. intros i Hi. apply (Hno (S i)).
           destruct Hi as [Hi | (x & d & ? & ? & ? & ?)]; [left; exact Hi|].
           right. exists x, d. auto.
        -- split; [|reflexivity]. intros _ [|i].
           ++ intros [[= ->] | (x & d & [= <-] & Ht & Hd & Hsp)]; [congruence|].
              rewrite Ht in Hfirst. simpl in Hfirst. apply Nat.ltb_ge in Hfirst.
              assert (0 < ws_run b) by (apply ws_run_pos_head; eauto). lia.
           ++ intros Hi. apply (proj1 IH eq_refl i).
              destruct Hi as [Hi | (x & d & ? & ? & ? & ?)]; [left; exact Hi|].
              right. exists x, d. auto.
Qed.

(** ** The segmenter *)

Lemma extract_loop_fuel n : forall m b q,
  length b <= n -> length b <= m -> extract_loop n b q = extract_loop m b q.
Proof.
  induction n as [|n IH]; intros m b q Hn Hm.
  - destruct b; [|simpl in Hn; lia]. destruct m; reflexivity.
  - destruct m as [|m].
    + destruct b; [|simpl in Hm; lia]. reflexivity.
    + cbn [extract_loop].
      destruct (SENTENCE_END_search b) as [e|] eqn:He; [|reflexivity].
      apply SENTENCE_END_search_bounds in He.
      apply IH; rewrite length_drop; lia.
Qed.

(** The loop, one iteration unrolled. *)
Lemma extract_sentences_eq b q :
  extract_sentences b q =
  match SENTENCE_END_search b with
  | None => (b, q)
  | Some end_pos =>
      extract_sentences (drop end_pos b)
        (put_if_nonempty q (clean_for_tts (strip (take end_pos b))))
  end.
Proof.
  unfold extract_sentences.
  destruct (SENTENCE_END_search b) as [e|] eqn:He.
  - pose proof (SENTENCE_END_search_bounds _ _ He) as Hb.
    destruct (length b) as [|n] eqn:Hlen; [lia|].
    cbn [extract_loop]. rewrite He.
    apply extract_loop_fuel; rewrite length_drop; lia.
  - destruct (length b); cbn [extract_loop]; [|rewrite He]; reflexivity.
Qed.

Lemma extract_sentences_remainder : forall n b q,
  length b <= n -> SENTENCE_END_search (fst (extract_sentences b q)) = None.
Proof.
  induction n as [|n IH]; intros b q Hn; rewrite extract_sentences_eq.
  - destruct b; [reflexivity|simpl in Hn; lia].
  - destruct (SENTENCE_END_search b) as [e|] eqn:He; [|exact He].
    apply SENTENCE_END_search_bounds in He.
    apply IH. rewrite length_drop. lia.
Qed.

Lemma drain_eq b q :
  drain b q =
  match SENTENCE_END_search b with
  | None => flush_fragment b q
  | Some end_pos =>
      drain (drop end_pos b)
        (put_if_nonempty q (clean_for_tts (strip (take end_pos b))))
  end.
Proof.
  unfold drain. rewrite extract_sentences_eq.
  destruct (SENTENCE_END_search b); reflexivity.
Qed.

Lemma clean_for_tts_empty : clean_for_tts [] = [].
Proof. reflexivity. Qed.

Lemma flush_fragment_cons_space c b q :
  is_space c = true -> flush_fragment (c :: b) q = flush_fragment b q.
Proof. intros Hc. unfold flush_fragment. rewrite strip_cons_space; auto. Qed.

(** Whitespace in front of the buffer changes nothing of what is emitted. *)
Lemma drain_cons_space c b q : is_space c = true -> drain (c :: b) q = drain b q.
Proof.
  intros Hc. rewrite (drain_eq (c :: b)), (drain_eq b). simpl.
  rewrite (space_not_terminator _ Hc). simpl.
  destruct (c =? 10)%N eqn:Hnl.
  - apply N.eqb_eq in Hnl as ->.
    change (drop 1 (10%N :: b)) with b.
    change (put_if_nonempty q (clean_for_tts (strip (take 1 (10%N :: b)))))
      with q.
    rewrite <- drain_eq. reflexivity.
  - destruct (SENTENCE_END_search b) as [e|]; simpl.
    + rewrite strip_cons_space; auto.
    + apply flush_fragment_cons_space, Hc.
Qed.

Lemma drain_app_spaces w b q :
  forallb is_space w = true -> drain (w ++ b) q = drain b q.
Proof.
  induction w as [|c w IH]; simpl; [reflexivity|].
  intros [Hc Hw]%andb_true_iff. rewrite drain_cons_space; auto.
Qed.

(** Segmenting [x] first and the rest later emits what segmenting [x ++ y]
    at once emits. *)
Lemma drain_resume : forall n x y q,
  length x <= n ->
  drain (fst (extract_sentences x q) ++ y) (snd (extract_sentences x q))
  = drain (x ++ y) q.
Proof.
  induction n as [|n IH]; intros x y q Hn; rewrite (extract_sentences_eq x).
  - destruct x; [reflexivity|simpl in Hn; lia].
  - destruct (SENTENCE_END_search x) as [e|] eqn:He; [|reflexivity].
    pose proof (SENTENCE_END_search_bounds _ _ He) as Hb.
    destruct (SENTENCE_END_search_app x y e He) as [Hxy | [-> Hxy]].
    + rewrite IH by (rewrite length_drop; lia).
      rewrite (drain_eq (x ++ y)), Hxy.
      rewrite take_app_le, drop_app_le by lia. reflexivity.
    + rewrite (drain_eq (x ++ y)), Hxy.
      rewrite drop_all, firstn_all. rewrite extract_sentences_eq. simpl.
      rewrite take_app_add', drop_app_add' by reflexivity.
      rewrite strip_app_spaces by apply ws_run_spaces.
      rewrite <- (take_drop (ws_run y) y) at 1.
      apply drain_app_spaces, ws_run_spaces.
Qed.

Lemma incremental_from : forall chunks buffer q,
  SENTENCE_END_search buffer = None ->
  flush_fragment (fst (fold_left feed chunks (buffer, q)))
                 (snd (fold_left feed chunks (buffer, q)))
  = drain (buffer ++ concat chunks) q.
Proof.
  induction chunks as [|chunk chunks IH]; intros buffer q Hnone; simpl.
  - rewrite app_nil_r, drain_eq, Hnone. reflexivity.
  - unfold feed at 2 4. simpl.
    destruct (extract_sentences (buffer ++ chunk) q) as [r q'] eqn:E.
    rewrite IH.
    + change r with (fst (r, q')). change q' with (snd (r, q')) at 2.
      rewrite <- E, app_assoc. apply (drain_resume (length (buffer ++ chunk))). lia.
    + change r with (fst (r, q')). rewrite <- E.
      apply (extract_sentences_remainder (length (buffer ++ chunk))). lia.
Qed.

(** C10: the remainder returned by [extract_sentences] holds no match of the
    terminator pattern, neither for the search of the pattern nor read code
    point by code point: no newline, and no [. ! ? ;] followed by
    whitespace. *)
Theorem extract_sentences_remainder_unterminated (buffer : str) (q : queue) :
  SENTENCE_END_search (fst (extract_sentences buffer q)) = None
  /\ forall i, ~ matches_at (fst (extract_sentences buffer q)) i.
Proof.
  assert (SENTENCE_END_search (fst (extract_sentences buffer q)) = None) as H
    by (apply (extract_sentences_remainder (length buffer)); lia).
  split; [exact H|]. apply SENTENCE_END_search_None, H.
Qed.

(** C3: for every way of cutting a text into consecutive chunks, feeding the
    chunks one call after the other and flushing the last remainder puts on
    the queue the fragments that one call on the whole text, with the same
    flush, puts there: the same sequence, hence the same set. *)
Theorem chunk_boundary_independence (chunks : list str) :
  incremental chunks = one_shot (concat chunks)
  /\ fragment_set (incremental chunks) = fragment_set (one_shot (concat chunks)).
Proof.
  assert (incremental chunks = one_shot (concat chunks)) as H.
  { unfold incremental, one_shot. apply (incremental_from chunks [] []). reflexivity. }
  split; [exact H|]. rewrite H. reflexivity.
Qed.

(** ** Words *)

Lemma split_from_words s : forall cur,
  forallb (fun c => negb (is_space c)) cur = true ->
  Forall (fun w => is_word w = true) (split_from cur s).
Proof.
  induction s as [|c s IH]; intros cur Hcur; simpl.
  - destruct (nonempty cur) eqn:E; constructor; [|constructor].
    unfold is_word. rewrite E, Hcur. reflexivity.
  - destruct (is_space c) eqn:Hc.
    + destruct (nonempty cur) eqn:E; [constructor|]; try (apply IH; reflexivity).
      unfold is_word. rewrite E, Hcur. reflexivity.
    + apply IH. rewrite forallb_app, Hcur. simpl. rewrite Hc. reflexivity.
Qed.

Lemma split_words s : Forall (fun w => is_word w = true) (split s).
Proof. apply split_from_words. reflexivity. Qed.

Lemma split_from_app_word w : forall cur s,
  forallb (fun c => negb (is_space c)) w = true ->
  split_from cur (w ++ s) = split_from (cur ++ w) s.
Proof.
  induction w as [|c w IH]; intros cur s Hw; simpl.
  - rewrite app_nil_r. reflexivity.
  - simpl in Hw. apply andb_true_iff in Hw as [Hc Hw].
    apply negb_true_iff in Hc. rewrite Hc, IH, <- app_assoc by exact Hw.
    reflexivity.
Qed.

Lemma split_join_space ws :
  Forall (fun w => is_word w = true) ws -> split (join_space ws) = ws.
Proof.
  destruct ws as [|w ws]; [reflexivity|]. revert w.
  induction ws as [|w2 ws IH]; intros w Hall.
  - apply Forall_inv in Hall. apply andb_true_iff in Hall as [Hne Hw].
    simpl. unfold split.
    pose proof (split_from_app_word w [] [] Hw) as H. rewrite app_nil_r in H.
    rewrite H. simpl. rewrite Hne. reflexivity.
  - pose proof (Forall_inv Hall) as Hw. apply andb_true_iff in Hw as [Hne Hw].
    apply Forall_inv_tail in Hall.
    change (join_space (w :: w2 :: ws)) with (w ++ 32%N :: join_space (w2 :: ws)).
    unfold split. rewrite split_from_app_word by exact Hw.
    cbn [split_from app]. change (is_space 32%N) with true. cbv iota.
    rewrite Hne. f_equal. apply IH, Hall.
Qed.

Lemma rstrip_by_word p w :
  forallb (fun c => negb (p c)) w = true -> rstrip_by p w = w.
Proof.
  induction w as [|c w IH]; simpl; [reflexivity|].
  intros [Hc Hw]%andb_true_iff. apply negb_true_iff in Hc.
  rewrite (IH Hw), Hc. destruct w; reflexivity.
Qed.

Lemma rstrip_by_app_word p s w :
  nonempty w = true -> forallb (fun c => negb (p c)) w = true ->
  rstrip_by p (s ++ w) = s ++ w.
Proof.
  intros Hne Hw. induction s as [|d s IH]; simpl.
  - apply rstrip_by_word, Hw.
  - rewrite IH. destruct s; [destruct w; [discriminate|]|]; reflexivity.
Qed.

Lemma join_space_ends_with_word ws : forall w,
  Forall (fun w => is_word w = true) (w :: ws) ->
  exists s w', join_space (w :: ws) = s ++ w' /\ is_word w' = true.
Proof.
  induction ws as [|w2 ws IH]; intros w Hall.
  - exists [], w. split; [reflexivity|]. apply (Forall_inv Hall).
  - destruct (IH w2 (Forall_inv_tail Hall)) as (s & w' & Hs & Hw').
    exists (w ++ 32%N :: s), w'. split; [|exact Hw'].
    change (join_space (w :: w2 :: ws)) with (w ++ 32%N :: join_space (w2 :: ws)).
    rewrite Hs, <- app_assoc. reflexivity.
Qed.

Lemma strip_join_space ws :
  Forall (fun w => is_word w = true) ws -> strip (join_space ws) = join_space ws.
Proof.
  destruct ws as [|w ws]; [reflexivity|]. intros Hall.
  destruct (join_space_ends_with_word ws w Hall) as (s & w' & Hs & Hw').
  apply andb_true_iff in Hw' as [Hne' Hw'].
  unfold strip, strip_by. rewrite Hs, rstrip_by_app_word, <- Hs by assumption.
  apply Forall_inv in Hall. apply andb_true_iff in Hall as [Hne Hw].
  destruct w as [|c w]; [discriminate|].
  simpl in Hw. apply andb_true_iff in Hw as [Hc _]. apply negb_true_iff in Hc.
  destruct ws; simpl; rewrite Hc; reflexivity.
Qed.

Lemma filter_words (keep : str -> bool) ws :
  Forall (fun w => is_word w = true) ws ->
  Forall (fun w => is_word w = true) (List.filter keep ws).
Proof.
  intros Hall. induction Hall as [|w ws Hw Hall IH]; simpl; [constructor|].
  destruct (keep w); [constructor|]; assumption.
Qed.

Lemma rstrip_by_nil p s : rstrip_by p s = [] <-> forallb p s = true.
Proof.
  induction s as [|c s IH]; simpl; [tauto|].
  destruct (rstrip_by p s) as [|d r].
  - destruct (p c); simpl; [|split; discriminate].
    split; intros _; [apply IH|]; reflexivity.
  - split; [discriminate|]. intros [_ H]%andb_true_iff. apply IH in H.
    discriminate.
Qed.

Lemma split_from_spaces s : forall cur,
  forallb is_space s = true ->
  split_from cur s = if nonempty cur then [cur] else [].
Proof.
  induction s as [|c s IH]; intros cur; simpl; [reflexivity|].
  intros [Hc Hs]%andb_true_iff. rewrite Hc, (IH [] Hs). reflexivity.
Qed.

Lemma split_lstrip s : split (lstrip_by is_space s) = split s.
Proof.
  induction s as [|c s IH]; [reflexivity|].
  simpl. destruct (is_space c) eqn:E; [|reflexivity].
  rewrite IH. unfold split. simpl. rewrite E. reflexivity.
Qed.

Lemma split_from_rstrip s : forall cur,
  split_from cur (rstrip_by is_space s) = split_from cur s.
Proof.
  induction s as [|c s IH]; intros cur; [reflexivity|].
  cbn [rstrip_by].
  destruct (rstrip_by is_space s) as [|d r] eqn:E.
  - apply rstrip_by_nil in E.
    cbn [split_from]. destruct (is_space c) eqn:Hc.
    + cbn [split_from]. rewrite (split_from_spaces s [] E).
      destruct (nonempty cur); reflexivity.
    + cbn [split_from]. rewrite Hc, (split_from_spaces s _ E).
      cbn [split_from]. reflexivity.
  - cbn [split_from]. rewrite <- !IH. reflexivity.
Qed.

(** [split] does not see the whitespace that [strip] removes. *)
Lemma split_strip s : split (strip s) = split s.
Proof.
  unfold strip, strip_by. rewrite split_lstrip. apply split_from_rstrip.
Qed.

(** ** search.py *)

(** C6: the words of the transcript whose lowercase form, stripped of
    [. , ! ?], is in the filler list are removed and the others kept in
    their order; when what is left is shorter than 5 code points the
    utterance is returned with no word removed or changed, fillers
    included: it is the transcript without the whitespace around it, hence
    the transcript itself when, as the session hands it on, it has none. *)
Theorem clean_for_search_spec (lower : str -> str) (transcript : str) :
  let kept := List.filter (fun w => negb (is_filler lower w)) (split transcript) in
  (5 <= length (join_space kept) ->
     clean_for_search lower transcript = join_space kept
     /\ split (clean_for_search lower transcript) = kept)
  /\ (length (join_space kept) < 5 ->
       clean_for_search lower transcript = strip transcript
       /\ split (clean_for_search lower transcript) = split transcript
       /\ (strip transcript = transcript ->
           clean_for_search lower transcript = transcript)).
Proof.
  intros kept.
  assert (Forall (fun w => is_word w = true) kept) as Hkept
    by apply filter_words, split_words.
  unfold clean_for_search. fold kept. rewrite (strip_join_space kept Hkept).
  split; intros Hlen.
  - rewrite (proj2 (Nat.ltb_ge _ _) Hlen). split; [reflexivity|].
    apply split_join_space, Hkept.
  - rewrite (proj2 (Nat.ltb_lt _ _) Hlen). split; [reflexivity|].
    split; [apply split_strip|]. intros Hstrip. exact Hstrip.
Qed.

Lemma clean_for_search_spec_witness :
  let kept (t : str) :=
    List.filter (fun w => negb (is_filler ascii_lower w)) (split t) in
  (5 <= length (join_space (kept (py "um what is the weather")))
   /\ clean_for_search ascii_lower (py "um what is the weather")
      = py "what is the weather")
  /\ (length (join_space (kept (py "ok. hi"))) < 5
      /\ clean_for_search ascii_lower (py "ok. hi") = py "ok. hi").
Proof.
  intros kept.
  assert (5 <= length (join_space (kept (py "um what is the weather")))) as H5
    by (vm_compute; lia).
  assert (length (join_space (kept (py "ok. hi"))) < 5) as H4
    by (vm_compute; lia).
  split; (split; [assumption|]).
  - exact (proj1 (proj1 (clean_for_search_spec ascii_lower _) H5)).
  - exact (proj2 (proj2 (proj2 (clean_for_search_spec ascii_lower _) H4))
             eq_refl).
Defined.

Lemma word_set_size_pos (w : gset str) : w <> ∅ -> size w <> 0.
Proof. intros Hne Hs. apply Hne, leibniz_equiv, size_empty_iff, Hs. Qed.

Lemma Z_of_nat_pos n : n <> 0 -> Z.of_nat n = Z.pos (Pos.of_nat n).
Proof. intros Hn. destruct n; [congruence|]. lia. Qed.

(** C1, as the code has it: the number of shared words over the size of the
    larger word set, and zero when a word set is empty. *)
Theorem query_similarity_overlap_ratio (lower : str -> str) (q1 q2 : str) :
  let w1 := word_set lower q1 in
  let w2 := word_set lower q2 in
  (w1 = ∅ \/ w2 = ∅ -> query_similarity lower q1 q2 = 0%Q)
  /\ (w1 <> ∅ -> w2 <> ∅ ->
      (query_similarity lower q1 q2
       == Z.of_nat (size (w1 ∩ w2)) # Pos.of_nat (Nat.max (size w1) (size w2)))%Q).
Proof.
  intros w1 w2. unfold query_similarity. fold w1 w2. split.
  - intros [-> | ->]; [reflexivity|].
    destruct (bool_decide (w1 = ∅)); reflexivity.
  - intros H1 H2. rewrite !bool_decide_eq_false_2 by assumption. cbn [orb].
    rewrite Qmake_Qdiv, <- Z_of_nat_pos; [reflexivity|].
    apply word_set_size_pos in H1. lia.
Qed.

Lemma query_similarity_overlap_ratio_witness :
  query_similarity ascii_lower (py "") (py "mumbai weather") = 0%Q
  /\ (query_similarity ascii_lower (py "weather in Mumbai today")
                                   (py "Mumbai weather today")
      == 3 # 4)%Q.
Proof.
  split.
  - apply (query_similarity_overlap_ratio ascii_lower (py "") (py "mumbai weather")).
    left. reflexivity.
  - refine (proj2 (query_similarity_overlap_ratio ascii_lower
                     (py "weather in Mumbai today") (py "Mumbai weather today")) _ _).
    + intros H. apply (f_equal size) in H. vm_compute in H. discriminate.
    + intros H. apply (f_equal size) in H. vm_compute in H. discriminate.
Defined.

(** The ratio does not depend on the order of the two queries. *)
Lemma query_similarity_sym (lower : str -> str) (q1 q2 : str) :
  query_similarity lower q1 q2 = query_similarity lower q2 q1.
Proof.
  unfold query_similarity.
  rewrite (orb_comm (bool_decide (word_set lower q1 = ∅))).
  rewrite (Nat.max_comm (size (word_set lower q1))).
  rewrite (comm_L (∩) (word_set lower q1)). reflexivity.
Qed.

(** The ratio of the code is never below the Jaccard ratio: the larger word
    set has at most as many words as the union. *)
Lemma jaccard_le_query_similarity (lower : str -> str) (q1 q2 : str) :
  (jaccard lower q1 q2 <= query_similarity lower q1 q2)%Q.
Proof.
  unfold jaccard, query_similarity.
  set (w1 := word_set lower q1). set (w2 := word_set lower q2).
  clearbody w1 w2.
  destruct (bool_decide (w1 = ∅)) eqn:E1; [apply Qle_refl|].
  destruct (bool_decide (w2 = ∅)) eqn:E2; [apply Qle_refl|]. cbn [orb].
  apply bool_decide_eq_false in E1. apply word_set_size_pos in E1.
  assert (size w1 <= size (w1 ∪ w2)) as H1 by (apply subseteq_size; set_solver).
  assert (size w2 <= size (w1 ∪ w2)) as H2 by (apply subseteq_size; set_solver).
  generalize dependent (size (w1 ∪ w2)). intros union H1 H2.
  generalize (size (w1 ∩ w2)). intros shared.
  generalize dependent (size w1). intros n1 Hn1 H1.
  generalize dependent (size w2). intros n2 H2.
  rewrite (Z_of_nat_pos (Nat.max n1 n2)), (Z_of_nat_pos union) by lia.
  rewrite <- !Qmake_Qdiv. unfold Qle. cbn [Qnum Qden].
  rewrite <- (Z_of_nat_pos (Nat.max n1 n2)), <- (Z_of_nat_pos union) by lia.
  nia.
Qed.

(** The scenario of the specification: the cleaned utterance and the
    model's query share three of the six words of the longer one. *)
Example similarity_mumbai :
  let clean_query :=
    clean_for_search ascii_lower (py "what's the weather in Mumbai today") in
  clean_query = py "what's the weather in Mumbai today"
  /\ (query_similarity ascii_lower clean_query (py "Mumbai weather today")
      == 1 # 2)%Q
  /\ Qle_bool (4 # 10)
       (query_similarity ascii_lower clean_query (py "Mumbai weather today"))
     = true.
Proof. vm_compute. repeat split. Qed.

(** C1 as stated fails: for ["a b"] and ["a c"] the code returns 1/2, the
    Jaccard ratio of the word sets is 1/3. *)
Lemma query_similarity_not_jaccard :
  query_similarity ascii_lower (py "a b") (py "a c") = (1 # 2)%Q
  /\ jaccard ascii_lower (py "a b") (py "a c") = (1 # 3)%Q
  /\ ~ (query_similarity ascii_lower (py "a b") (py "a c")
        == jaccard ascii_lower (py "a b") (py "a c"))%Q.
Proof.
  split; [vm_compute; reflexivity|]. split; [vm_compute; reflexivity|].
  vm_compute. intros [=].
Qed.

(** ** tts.py *)

Lemma reader_loop_spec incoming : forall st,
  exists audios,
    audios `prefix_of` incoming_audio incoming
    /\ reader_loop incoming st =
       {| chunk_count := chunk_count st + length audios;
          sent := sent st ++ zip_with audio_chunk audios
                               (seq (S (chunk_count st)) (length audios)) |}.
Proof.
  assert (forall st, st = {| chunk_count := chunk_count st + 0;
                             sent := sent st ++ [] |}) as Hstay.
  { intros [n evs]. simpl. rewrite Nat.add_0_r, app_nil_r. reflexivity. }
  induction incoming as [|[cancelled message] rest IH]; intros st.
  - exists []. split; [apply prefix_nil|]. apply Hstay.
  - cbn [reader_loop]. unfold reader_step. destruct cancelled.
    { exists []. split; [apply prefix_nil|]. apply Hstay. }
    destruct message as [audio | event_type | ].
    + destruct (IH {| chunk_count := chunk_count st + 1;
                      sent := sent st ++ [audio_chunk audio (chunk_count st + 1)] |})
        as (audios & Hpre & ->).
      exists (audio :: audios). split; [apply prefix_cons, Hpre|].
      cbn [chunk_count sent length zip_with seq].
      rewrite <- app_assoc, Nat.add_1_r. f_equal. lia.
    + destruct (str_eqb event_type (py "final")).
      * exists []. split; [apply prefix_nil|]. apply Hstay.
      * destruct (IH st) as (audios & Hpre & ->). exists audios. auto.
    + destruct (IH st) as (audios & Hpre & ->). exists audios. auto.
Qed.

Lemma stream_to_client_spec tts_ws :
  exists audios,
    audios `prefix_of` incoming_audio (incoming tts_ws)
    /\ stream_to_client tts_ws
       = (length audios, zip_with audio_chunk audios (seq 1 (length audios))).
Proof.
  unfold stream_to_client. destruct (connects tts_ws).
  - destruct (reader_loop_spec (incoming tts_ws) {| chunk_count := 0; sent := [] |})
      as (audios & Hpre & ->).
    exists audios. auto.
  - exists []. split; [apply prefix_nil|reflexivity].
Qed.

Lemma numbered_lookup audios k ev :
  zip_with audio_chunk audios (seq 1 (length audios)) !! k = Some ev ->
  k < length audios /\ exists audio, ev = audio_chunk audio (S k).
Proof.
  intros H. apply lookup_zip_with_Some in H as (audio & n & -> & Ha & Hn).
  apply lookup_seq in Hn as [-> Hk]. split; [exact Hk|]. exists audio. reflexivity.
Qed.

(** Once the cancel signal is observed the loop is left: what the socket
    delivers afterwards is not looked at. *)
Lemma reader_loop_cancel pre message post : forall st,
  reader_loop (pre ++ (true, message) :: post) st = reader_loop pre st.
Proof.
  induction pre as [|[c m] pre IH]; intros st; [reflexivity|].
  cbn [reader_loop app]. destruct (reader_step c m st) as [[|] st']; auto.
Qed.

Lemma stream_to_client_cancel c pre message post :
  stream_to_client {| connects := c; incoming := pre ++ (true, message) :: post |}
  = stream_to_client {| connects := c; incoming := pre |}.
Proof.
  unfold stream_to_client. cbn [connects incoming].
  destruct c; [rewrite reader_loop_cancel|]; reflexivity.
Qed.

(** C7: the events [stream_to_client] sends are the [audio_chunk]s of a
    prefix of the audio it receives, in the order received, the k-th
    carrying [chunk_num] k counted from 1; the value returned is their
    number; it is 0 when the cancel signal is observed before any audio, and
    on a search-pending first leg the consumer sends nothing. *)
Theorem stream_to_client_numbering :
  (forall tts_ws, exists audios,
      audios `prefix_of` incoming_audio (incoming tts_ws)
      /\ stream_to_client tts_ws
         = (length audios, zip_with audio_chunk audios (seq 1 (length audios))))
  /\ (forall tts_ws k ev,
        snd (stream_to_client tts_ws) !! k = Some ev ->
        exists audio, ev = audio_chunk audio (S k))
  /\ (forall tts_ws,
        fst (stream_to_client tts_ws) = length (snd (stream_to_client tts_ws)))
  /\ (forall c pre message post,
        incoming_audio pre = [] ->
        stream_to_client
          {| connects := c; incoming := pre ++ (true, message) :: post |} = (0, []))
  /\ (forall cancelled tts_ws, tts_consumer true cancelled tts_ws = (0, [])).
Proof.
  split; [exact stream_to_client_spec|]. split; [|split; [|split]].
  - intros tts_ws k ev. destruct (stream_to_client_spec tts_ws) as (audios & _ & ->).
    intros H. apply numbered_lookup in H as [_ H]. exact H.
  - intros tts_ws. destruct (stream_to_client_spec tts_ws) as (audios & _ & ->).
    cbn [fst snd]. rewrite length_zip_with, length_seq. lia.
  - intros c pre message post Hpre. rewrite stream_to_client_cancel.
    destruct (stream_to_client_spec {| connects := c; incoming := pre |})
      as (audios & Hprefix & ->).
    cbn [incoming] in Hprefix. rewrite Hpre in Hprefix.
    apply prefix_nil_inv in Hprefix as ->. reflexivity.
  - reflexivity.
Qed.

Lemma stream_to_client_numbering_witness :
  stream_to_client
    {| connects := true;
       incoming := [(false, EventResponse (py "started"));
                    (true, AudioOutput (py "a")); (false, AudioOutput (py "b"))] |}
  = (0, [])
  /\ exists audio,
      audio_chunk (py "b") 2 = audio_chunk audio 2.
Proof.
  split.
  - apply (proj1 (proj2 (proj2 (proj2 stream_to_client_numbering)))
             true [(false, EventResponse (py "started"))]).
    reflexivity.
  - apply (proj1 (proj2 stream_to_client_numbering)
             {| connects := true;
                incoming := [(false, AudioOutput (py "a"));
                             (false, AudioOutput (py "b"))] |} 1).
    reflexivity.
Defined.

(** C8: an iteration of the reader that observes the cancel signal leaves
    the loop without sending; so a run in which the signal is observed after
    [pre] sends what the run over [pre] alone sends, whatever the socket
    still delivers, and no [audio_chunk] numbered above the count reached
    then; a leg whose consumer starts under a set signal sends nothing. *)
Theorem reader_sends_nothing_after_cancel :
  (forall message st, reader_step true message st = (Break, st))
  /\ (forall c pre message post,
        stream_to_client
          {| connects := c; incoming := pre ++ (true, message) :: post |}
        = stream_to_client {| connects := c; incoming := pre |})
  /\ (forall c pre message post audio k,
        audio_chunk audio k ∈
          snd (stream_to_client
                 {| connects := c; incoming := pre ++ (true, message) :: post |}) ->
        k <= fst (stream_to_client {| connects := c; incoming := pre |}))
  /\ (forall is_search tts_ws, tts_consumer is_search true tts_ws = (0, [])).
Proof.
  split; [reflexivity|]. split; [exact stream_to_client_cancel|]. split.
  - intros c pre message post audio k. rewrite stream_to_client_cancel.
    destruct (stream_to_client_spec {| connects := c; incoming := pre |})
      as (audios & _ & ->).
    cbn [fst snd]. intros (i & Hi)%list_elem_of_lookup.
    apply numbered_lookup in Hi as [Hlt (a & [= _ ->])]. lia.
  - intros is_search tts_ws. unfold tts_consumer. rewrite orb_true_r. reflexivity.
Qed.

Lemma reader_sends_nothing_after_cancel_witness :
  2 <= fst (stream_to_client
              {| connects := true;
                 incoming := [(false, AudioOutput (py "a"));
                              (false, AudioOutput (py "b"))] |}).
Proof.
  apply (proj1 (proj2 (proj2 reader_sends_nothing_after_cancel))
           true [(false, AudioOutput (py "a")); (false, AudioOutput (py "b"))]
           (AudioOutput (py "c")) [(false, AudioOutput (py "d"))] (py "b") 2).
  vm_compute. apply list_elem_of_In. right. left. reflexivity.
Defined.

(** ** pipeline.py: the first-leg producer *)

Lemma producer_step_undecided st content :
  search_detected st = false ->
  undecided (full_response st ++ content) ->
  producer_step st content =
  {| full_response := full_response st ++ content;
     sentence_buffer := sentence_buffer st;
     is_search := is_search st; search_detected := false;
     sentences_queue := sentences_queue st;
     chunks_sent := chunks_sent st ++ [llm_chunk content] |}.
Proof.
  intros Hdet (Hmarker & Hlen & Hend). unfold producer_step.
  rewrite Hdet, Hmarker, Hend. cbn [negb].
  rewrite (proj2 (Nat.ltb_ge _ _) Hlen).
  rewrite bool_decide_eq_false_2 by (intros [x [=]]). reflexivity.
Qed.

Lemma fold_producer_step_undecided tokens : forall st,
  search_detected st = false ->
  (forall k, undecided (full_response st ++ concat (take k tokens))) ->
  let st' := fold_left producer_step tokens st in
  search_detected st' = false
  /\ is_search st' = is_search st
  /\ sentence_buffer st' = sentence_buffer st
  /\ sentences_queue st' = sentences_queue st
  /\ full_response st' = full_response st ++ concat tokens.
Proof.
  induction tokens as [|content tokens IH]; intros st Hdet Hund; cbn zeta.
  - simpl. rewrite app_nil_r. auto.
  - cbn [fold_left]. rewrite producer_step_undecided; [|exact Hdet|].
    + match goal with |- context [fold_left _ _ ?s] => specialize (IH s) end.
      cbn [search_detected full_response is_search sentence_buffer sentences_queue]
        in IH.
      destruct IH as (H1 & H2 & H3 & H4 & H5); [reflexivity| |].
      * intros k. specialize (Hund (S k)). cbn [take concat] in Hund.
        rewrite <- app_assoc. exact Hund.
      * rewrite H1, H2, H3, H4, H5. cbn [concat]. rewrite <- app_assoc. auto.
    + specialize (Hund 1). cbn [take concat] in Hund.
      rewrite take_0 in Hund. cbn [concat] in Hund.
      rewrite app_nil_r in Hund. exact Hund.
Qed.

(** What [run.llm_producer] does when the stream ends before the decision
    has fired: the decision is direct-answer, and the queue holds the end
    sentinel alone, because the text was accumulated in [full_response] and
    the [finally] block flushes [sentence_buffer], which is still empty. *)
Lemma llm_producer_undecided tokens :
  (forall k, undecided (concat (take k tokens))) ->
  let p := llm_producer tokens in
  is_search p = false
  /\ search_detected p = true
  /\ full_response p = concat tokens
  /\ sentences_queue p = [None].
Proof.
  intros Hund. cbn zeta. unfold llm_producer.
  destruct (fold_producer_step_undecided tokens producer_init eq_refl Hund)
    as (H1 & H2 & H3 & H4 & H5).
  unfold producer_finally. rewrite H2, H3, H4, H5. auto.
Qed.

(** C2, at a reply of two contents that ends undecided: the decision is
    direct-answer, the accumulated text is not empty after cleaning, and the
    queue receives the end sentinel only. *)
Theorem llm_producer_drops_short_reply :
  let tokens := [py "Hello "; py "there"] in
  let p := llm_producer tokens in
  (forall k, undecided (concat (take k tokens)))
  /\ is_search p = false
  /\ clean_for_tts (full_response p) = py "Hello there"
  /\ sentences_queue p = [None]
  /\ sentences_queue (search_llm_producer tokens) = [Some (py "Hello there"); None].
Proof.
  cbn zeta. split.
  - intros [|[|[|k]]]; vm_compute; (split; [reflexivity|split; [lia|reflexivity]]).
  - vm_compute. auto.
Qed.

(** ** search.py: [web_search] *)

Lemma web_search_returns ddgs query max_results :
  exists s, web_search ddgs query max_results = Returns s.
Proof.
  unfold web_search.
  destruct (web_search_try ddgs query max_results) as [s | [e]]; eauto.
Qed.

Lemma web_search_cases ddgs query max_results :
  exists s,
    web_search ddgs query max_results = Returns s
    /\ match ddgs query max_results with
       | Raises (Exception e) => s = py "Search error: " ++ e
       | Returns [] => s = py "No results found."
       | Returns results =>
           match for_each format_hit results with
           | Returns formatted => s = join_lines formatted
           | Raises (Exception e) => s = py "Search error: " ++ e
           end
       end.
Proof.
  unfold web_search, web_search_try, bind.
  destruct (ddgs query max_results) as [[|r results] | [e]]; eauto.
  destruct (for_each format_hit (r :: results)) as [formatted | [e]]; eauto.
Qed.

Section PipelineFacts.

Variable lower : str -> str.

Lemma resolve_search_returns env clean_query search_query :
  exists search_results,
    resolve_search lower env clean_query search_query = Returns search_results.
Proof.
  unfold resolve_search.
  destruct (Qle_bool _ _); [|apply web_search_returns].
  destruct (speculative_timed_out env); [apply web_search_returns|].
  destruct (web_search (ddgs_speculative env) clean_query 3); eauto.
  apply web_search_returns.
Qed.

Lemma pop_snoc h m : pop (h ++ [m]) = (Returns tt, h).
Proof.
  unfold pop. destruct (h ++ [m]) eqn:E.
  - destruct h; discriminate.
  - rewrite <- E, removelast_last. reflexivity.
Qed.

Ltac exec := cbv beta iota; rewrite ?pop_snoc; cbv beta iota.

Ltac returned :=
  match goal with
  | |- exists rep, (Returns ?r, _) = _ /\ _ =>
      exists r; split; [reflexivity|cbn; auto; try discriminate]
  end.

Lemma finish_total env full rs chunks h m :
  exists rep,
    finish env full rs chunks (h ++ [m])
    = (Returns rep,
       match result_of rep with
       | Committed => (h ++ [m]) ++ [ {| role := Assistant; content := response rep |} ]
       | _ => h
       end)
    /\ response rep = full
    /\ rounds rep = rs
    /\ (full = [] -> result_of rep <> Committed).
Proof.
  unfold finish, bindM, ret, append.
  destruct (cancelled_at_finish env); exec.
  { returned. }
  destruct full as [|c full]; cbn [nonempty negb]; exec; returned.
Qed.

(** A turn always returns, and leaves the record either as sanitized at
    its start, or with the user message and the committed answer added. *)
Lemma run_total env transcript h :
  exists rep,
    run lower env transcript h
    = (Returns rep,
       match result_of rep with
       | Committed =>
           (sanitize h ++ [ {| role := User; content := transcript |} ])
           ++ [ {| role := Assistant; content := response rep |} ]
       | _ => sanitize h
       end)
    /\ (response rep = [] -> result_of rep <> Committed).
Proof.
  unfold run, bindM, sanitize_history, append, get_history, ret, lift.
  cbv beta iota zeta.
  set (messages := sanitize h ++ [ {| role := User; content := transcript |} ]).
  set (p := llm_producer (llm_tokens env messages)).
  assert (forall full rounds audio, exists rep,
    finish env full rounds audio messages
    = (Returns rep,
       match result_of rep with
       | Committed => messages ++ [ {| role := Assistant; content := response rep |} ]
       | _ => sanitize h
       end)
    /\ (response rep = [] -> result_of rep <> Committed)) as Hfinish.
  { intros full rounds audio.
    destruct (finish_total env full rounds audio (sanitize h)
                {| role := User; content := transcript |})
      as (rep & Hrep & Hfull & _ & Hempty).
    exists rep. split; [exact Hrep|]. rewrite Hfull. exact Hempty. }
  destruct (cancelled_after_gather env); unfold messages at 1; exec.
  { returned. }
  destruct (is_search p); [|apply Hfinish].
  destruct (SEARCH_directive (full_response p)) as [g|]; [|apply Hfinish].
  destruct (resolve_search_returns env (clean_for_search lower transcript) (strip g))
    as [search_results ->].
  destruct (cancelled_after_search env); unfold messages at 1; exec.
  { returned. }
  fold messages.
  destruct (cancelled_after_second_leg env); exec; [|apply Hfinish].
  unfold messages at 1. exec. returned.
Qed.

(** The search whose text [resolve_search] returns: the speculative one
    when the queries are similar enough and the task answered in time, the
    fresh one otherwise.  [web_search] never raising, a speculative search
    that failed is not repeated: its error text is the result. *)
Lemma resolve_search_used env clean_query search_query :
  let speculative :=
    Qle_bool (4 # 10) (query_similarity lower clean_query search_query)
    && negb (speculative_timed_out env) in
  resolve_search lower env clean_query search_query
  = web_search (if speculative then ddgs_speculative env else ddgs_fresh env)
               (if speculative then clean_query else search_query) 3.
Proof.
  unfold resolve_search.
  destruct (Qle_bool _ _); [|reflexivity].
  destruct (speculative_timed_out env); [reflexivity|]. cbn [andb negb].
  destruct (web_search_returns (ddgs_speculative env) clean_query 3) as [s ->].
  reflexivity.
Qed.

Lemma web_search_failure ddgs query max_results e s :
  ddgs query max_results = Raises (Exception e) ->
  web_search ddgs query max_results = Returns s ->
  s = py "Search error: " ++ e.
Proof.
  unfold web_search, web_search_try, bind. intros ->. congruence.
Qed.

(** The results text stands in the prompt, between the line that names the
    query and the instruction. *)
Lemma search_prompt_embeds search_query search_results :
  exists before after,
    search_prompt search_query search_results
    = before ++ search_results ++ after
    /\ before = py "Here are the web search results for '" ++ search_query
                ++ py "':" ++ [10; 10]%N.
Proof.
  unfold search_prompt. eexists _, _. split; [|reflexivity].
  rewrite <- !app_assoc. reflexivity.
Qed.

(** The search branch, when it is not cancelled: the second round is
    started on the record extended by the directive and by the prompt
    that embeds the search results, and the turn ends with the response
    of that round. *)
Lemma run_search_round env transcript h g :
  let messages := sanitize h ++ [ {| role := User; content := transcript |} ] in
  let p := llm_producer (llm_tokens env messages) in
  cancelled_after_gather env = false ->
  is_search p = true ->
  SEARCH_directive (full_response p) = Some g ->
  cancelled_after_search env = false ->
  exists search_results rep,
    let messages2 :=
      (messages ++ [ {| role := Assistant; content := full_response p |} ])
      ++ [ {| role := User;
              content := search_prompt (strip g) search_results |} ] in
    resolve_search lower env (clean_for_search lower transcript) (strip g)
    = Returns search_results
    /\ fst (run lower env transcript h) = Returns rep
    /\ rounds rep = [messages; messages2]
    /\ response rep = full_response (search_llm_producer (llm_tokens env messages2)).
Proof.
  intros messages p Hgather Hsearch Hdirective Hcancel.
  destruct (resolve_search_returns env (clean_for_search lower transcript) (strip g))
    as [search_results Hres].
  exists search_results.
  unfold run, bindM, sanitize_history, append, get_history, ret, lift.
  cbv beta iota zeta. fold messages. fold p.
  rewrite Hgather, Hsearch, Hdirective, Hres, Hcancel. exec.
  destruct (cancelled_after_second_leg env); unfold messages at 1; exec.
  - eexists. split; [reflexivity|]. repeat split; reflexivity.
  - fold messages.
    match goal with
    | |- context [finish env ?full ?rs ?chunks messages] =>
        destruct (finish_total env full rs chunks (sanitize h)
                    {| role := User; content := transcript |})
          as (rep & Hfin & Hfull & Hrounds & _)
    end.
    fold messages in Hfin. rewrite Hfin.
    exists rep. split; [reflexivity|]. split; [reflexivity|].
    split; [exact Hrounds|exact Hfull].
Qed.

End PipelineFacts.

(** ** The Conversation Record *)

Lemma flip_neq e : role_eqb e (flip e) = false.
Proof. destruct e; reflexivity. Qed.

Lemma role_eqb_eq a b : role_eqb a b = true -> a = b.
Proof. destruct a, b; simpl; congruence. Qed.

(** On alternating roles [sanitize_history] finds nothing to merge. *)
Lemma merge_from_alternates rest : forall m e,
  alternates e (m :: rest) = true -> merge_from m rest = m :: rest.
Proof.
  induction rest as [|next rest IH]; intros m e Halt; [reflexivity|].
  cbn [alternates] in Halt.
  apply andb_true_iff in Halt as [Hm Hrest].
  pose proof Hrest as Hnext. cbn [alternates] in Hnext.
  apply andb_true_iff in Hnext as [Hnext _].
  apply role_eqb_eq in Hm. apply role_eqb_eq in Hnext.
  cbn [merge_from]. rewrite Hm, Hnext, flip_neq.
  f_equal. apply (IH next (flip e)), Hrest.
Qed.

Lemma sanitize_alternates m0 rest e :
  alternates e rest = true -> sanitize (m0 :: rest) = m0 :: rest.
Proof.
  destruct rest as [|m1 rest]; [reflexivity|]. intros Halt.
  cbn [sanitize]. rewrite (merge_from_alternates rest m1 e Halt). reflexivity.
Qed.

Lemma iter_flip_user n :
  Nat.iter n flip User = if Nat.even n then User else Assistant.
Proof.
  induction n as [|n IH]; [reflexivity|].
  cbn [Nat.iter nat_rect]. change (nat_rect _ _ _ n) with (Nat.iter n flip User).
  rewrite IH, Nat.even_succ, <- Nat.negb_even.
  destruct (Nat.even n); reflexivity.
Qed.

Lemma alternates_app l1 : forall e l2,
  alternates e l1 = true ->
  alternates e (l1 ++ l2) = alternates (Nat.iter (length l1) flip e) l2.
Proof.
  induction l1 as [|m l1 IH]; intros e l2 Halt; [reflexivity|].
  cbn [alternates] in Halt. apply andb_true_iff in Halt as [Hm Hrest].
  cbn [app alternates length]. rewrite Hm, (IH _ _ Hrest), Nat.iter_succ_r.
  reflexivity.
Qed.

(** A turn that returns keeps a record made of (user, assistant) pairs. *)
Lemma returning_turn_settled lower SYSTEM_PROMPT env transcript h :
  settled SYSTEM_PROMPT h ->
  settled SYSTEM_PROMPT (snd (run lower env transcript h)).
Proof.
  intros (rest & -> & Halt & Heven).
  destruct (run_total lower env transcript
              ({| role := System; content := SYSTEM_PROMPT |} :: rest))
    as (rep & -> & _).
  rewrite (sanitize_alternates _ rest User Halt). cbn [snd].
  assert (settled SYSTEM_PROMPT
            ({| role := System; content := SYSTEM_PROMPT |} :: rest)) as Hsame
    by (exists rest; auto).
  destruct (result_of rep); try exact Hsame.
  exists (rest ++ [ {| role := User; content := transcript |};
                    {| role := Assistant; content := response rep |} ]).
  split; [|split].
  - cbn [app]. rewrite <- app_assoc. reflexivity.
  - rewrite (alternates_app rest User _ Halt), iter_flip_user, Heven. reflexivity.
  - rewrite length_app, Nat.even_add, Heven. reflexivity.
Qed.

(** The task none of whose [await]s is interrupted is the turn that
    returns. *)
Lemma run_task_uninterrupted lower env transcript h :
  run_task lower uninterrupted env transcript h = run lower env transcript h.
Proof. reflexivity. Qed.

(** C4: the invariant fails on a reachable record.  On the fresh record, a
    turn whose task is cancelled while it awaits its first leg leaves the
    user message behind; the next turn is run on system, user, user, hands
    that list to the generation collaborator, commits, and leaves the roles
    system, user, user, assistant. *)
Theorem hard_cancel_breaks_alternation (lower : str -> str)
    (SYSTEM_PROMPT : str) :
  let h0 := conversation_history SYSTEM_PROMPT in
  let h1 := snd (run_task lower cancelled_in_first_leg direct_turn (py "hello") h0) in
  let turn2 := run_task lower uninterrupted direct_turn (py "are you there") h1 in
  h1 = h0 ++ [ {| role := User; content := py "hello" |} ]
  /\ (exists rep,
        fst turn2 = Returns rep
        /\ result_of rep = Committed
        /\ map (map role) (rounds rep) = [[System; User; User]])
  /\ map role (snd turn2) = [System; User; User; Assistant]
  /\ reachable lower SYSTEM_PROMPT (snd turn2)
  /\ ~ alternation_invariant SYSTEM_PROMPT (snd turn2).
Proof.
  intros h0 h1 turn2.
  assert (h1 = h0 ++ [ {| role := User; content := py "hello" |} ]) as Hh1
    by reflexivity.
  split; [exact Hh1|].
  split; [eexists; split; [reflexivity|split; reflexivity]|].
  split; [reflexivity|].
  split.
  - eapply reachable_turn; [eapply reachable_turn; [apply reachable_start|]|].
    + exists cancelled_in_first_leg, direct_turn, (py "hello"). reflexivity.
    + exists uninterrupted, direct_turn, (py "are you there"). reflexivity.
  - intros (rest & Hrest & Halt).
    assert (map role rest = [User; User; Assistant]) as Hroles.
    { apply (f_equal (map role)) in Hrest. cbn in Hrest.
      injection Hrest as <-. reflexivity. }
    destruct rest as [|m1 [|m2 rest]]; try discriminate.
    cbn in Hroles. injection Hroles as H1 H2 _.
    cbn [alternates] in Halt. rewrite H1, H2 in Halt. discriminate.
Qed.

(** C5: a turn returns, and when the response text it ends with is empty it
    has committed nothing: the record is the one the initial sanitization
    produced, without the user message and without an assistant message. *)
Theorem empty_response_leaves_record (lower : str -> str) (env : turn_env)
    (transcript : str) (h : list message) :
  exists rep,
    fst (run lower env transcript h) = Returns rep
    /\ (response rep = [] ->
        result_of rep <> Committed
        /\ snd (run lower env transcript h) = sanitize h).
Proof.
  destruct (run_total lower env transcript h) as (rep & -> & Hempty).
  exists rep. split; [reflexivity|]. intros Hresp. specialize (Hempty Hresp).
  split; [exact Hempty|]. cbn [snd]. destruct (result_of rep); congruence.
Qed.

Lemma empty_response_leaves_record_witness :
  let h := conversation_history (py "You are Baatein.") in
  exists rep,
    fst (run ascii_lower silent_turn (py "hello") h) = Returns rep
    /\ response rep = []
    /\ snd (run ascii_lower silent_turn (py "hello") h) = h.
Proof.
  intros h.
  destruct (empty_response_leaves_record ascii_lower silent_turn (py "hello") h)
    as (rep & Hrun & Hempty).
  exists rep. split; [exact Hrun|].
  assert (response rep = []) as Hresp.
  { vm_compute in Hrun. injection Hrun as <-. reflexivity. }
  split; [exact Hresp|]. apply Hempty, Hresp.
Defined.

(** C9: [web_search] returns a text and never raises: the formatted hits,
    ["No results found."] when the provider has none, or the provider's
    error text behind ["Search error: "].  In the search branch of a turn
    that is neither cancelled nor cut short, the text of the search that is
    used (the speculative one when the queries are similar enough and it
    answered in time, the fresh one otherwise), the error text when that
    search failed, stands inside the content of the user message that ends
    the list given to the second generation round, right behind the line
    that names the query, and the turn ends with the response of that
    round. *)
Theorem web_search_never_raises :
  (forall ddgs query max_results,
      exists s,
        web_search ddgs query max_results = Returns s
        /\ match ddgs query max_results with
           | Raises (Exception e) => s = py "Search error: " ++ e
           | Returns [] => s = py "No results found."
           | Returns results =>
               match for_each format_hit results with
               | Returns formatted => s = join_lines formatted
               | Raises (Exception e) => s = py "Search error: " ++ e
               end
           end)
  /\ (forall lower env transcript h g,
        let messages := sanitize h ++ [ {| role := User; content := transcript |} ] in
        let p := llm_producer (llm_tokens env messages) in
        let clean_query := clean_for_search lower transcript in
        let search_query := strip g in
        let speculative :=
          Qle_bool (4 # 10) (query_similarity lower clean_query search_query)
          && negb (speculative_timed_out env) in
        let ddgs := if speculative then ddgs_speculative env else ddgs_fresh env in
        let query := if speculative then clean_query else search_query in
        cancelled_after_gather env = false ->
        is_search p = true ->
        SEARCH_directive (full_response p) = Some g ->
        cancelled_after_search env = false ->
        exists search_results rep before after,
          let messages2 :=
            messages
            ++ [ {| role := Assistant; content := full_response p |};
                 {| role := User;
                    content := before ++ search_results ++ after |} ] in
          web_search ddgs query 3 = Returns search_results
          /\ (forall e,
                ddgs query 3 = Raises (Exception e) ->
                search_results = py "Search error: " ++ e)
          /\ before = py "Here are the web search results for '"
                      ++ search_query ++ py "':" ++ [10; 10]%N
          /\ fst (run lower env transcript h) = Returns rep
          /\ rounds rep = [messages; messages2]
          /\ response rep
             = full_response (search_llm_producer (llm_tokens env messages2))).
Proof.
  split; [exact web_search_cases|].
  intros lower env transcript h g messages p clean_query search_query
    speculative ddgs query Hgather Hsearch Hdirective Hcancel.
  destruct (run_search_round lower env transcript h g
              Hgather Hsearch Hdirective Hcancel)
    as (search_results & rep & Hres & Hrun & Hrounds & Hresponse).
  destruct (search_prompt_embeds search_query search_results)
    as (before & after & Hprompt & Hbefore).
  fold messages p search_query in Hrounds, Hresponse.
  rewrite Hprompt, <- app_assoc in Hrounds, Hresponse.
  rewrite resolve_search_used in Hres.
  fold clean_query search_query speculative ddgs query in Hres.
  exists search_results, rep, before, after. cbv zeta.
  split; [exact Hres|].
  split; [intros e He; exact (web_search_failure ddgs query 3 e _ He Hres)|].
  split; [exact Hbefore|].
  split; [exact Hrun|]. split; [exact Hrounds|exact Hresponse].
Qed.

Lemma web_search_never_raises_witness :
  exists rep after,
    fst (run ascii_lower search_turn_fresh_up
           (py "what is the weather in Mumbai today")
           (conversation_history (py "You are Baatein."))) = Returns rep
    /\ (content <$> (rounds rep !! 1 ≫= last))
       = Some (py "Here are the web search results for 'Mumbai weather today':"
               ++ [10; 10]%N ++ py "Search error: offline" ++ after).
Proof.
  destruct (proj2 web_search_never_raises ascii_lower search_turn_fresh_up
              (py "what is the weather in Mumbai today")
              (conversation_history (py "You are Baatein."))
              (py "Mumbai weather today"))
    as (search_results & rep & before & after
        & _ & Herr & Hbefore & Hrun & Hrounds & _);
    try (vm_compute; reflexivity).
  exists rep, after. split; [exact Hrun|].
  rewrite (Herr (py "offline")) in Hrounds by reflexivity.
  rewrite Hrounds, Hbefore. cbn [lookup list_lookup mbind option_bind].
  rewrite last_app. cbn [last fmap option_fmap option_map content].
  rewrite <- !app_assoc. reflexivity.
Defined.

(** * Further properties of the code *)

(** ** config.py: [sanitize_history] on any record *)

Lemma role_eqb_refl r : role_eqb r r = true.
Proof. destruct r; reflexivity. Qed.

Lemma merge_from_head rest : forall m,
  exists m' rest', merge_from m rest = m' :: rest' /\ role m' = role m.
Proof.
  induction rest as [|next rest IH]; intros m; cbn [merge_from]; [eauto|].
  destruct (role_eqb (role m) (role next)); [|eauto].
  destruct (IH {| role := role m;
                  content := content m ++ py " " ++ content next |})
    as (m' & rest' & -> & Hrole).
  eauto.
Qed.

Lemma adjacent_distinct_cons m1 m2 l :
  adjacent_distinct (m1 :: m2 :: l)
  = negb (role_eqb (role m1) (role m2)) && adjacent_distinct (m2 :: l).
Proof. reflexivity. Qed.

Lemma merge_from_distinct rest : forall m,
  adjacent_distinct (merge_from m rest) = true.
Proof.
  induction rest as [|next rest IH]; intros m; cbn [merge_from]; [reflexivity|].
  destruct (role_eqb (role m) (role next)) eqn:E; [apply IH|].
  specialize (IH next).
  destruct (merge_from_head rest next) as (m' & rest' & Hm & Hrole).
  rewrite Hm in IH |- *. rewrite adjacent_distinct_cons, Hrole, E, IH.
  reflexivity.
Qed.

Lemma merge_from_fixed rest : forall m,
  adjacent_distinct (m :: rest) = true -> merge_from m rest = m :: rest.
Proof.
  induction rest as [|next rest IH]; intros m Hd; [reflexivity|].
  rewrite adjacent_distinct_cons in Hd. apply andb_true_iff in Hd as [Hne Hd].
  apply negb_true_iff in Hne. cbn [merge_from]. rewrite Hne, (IH next Hd).
  reflexivity.
Qed.

(** X1: whatever the record holds, after [sanitize_history] no two
    neighbouring entries behind the first one have the same role. *)
Theorem sanitize_adjacent_distinct (h : list message) :
  adjacent_distinct (tail (sanitize h)) = true.
Proof.
  destruct h as [|m0 [|m1 rest]]; try reflexivity.
  cbn [sanitize tail]. apply merge_from_distinct.
Qed.

(** X2: [sanitize_history] is idempotent: a second pass merges nothing. *)
Theorem sanitize_idempotent (h : list message) :
  sanitize (sanitize h) = sanitize h.
Proof.
  destruct h as [|m0 [|m1 rest]]; try reflexivity.
  cbn [sanitize].
  destruct (merge_from_head rest m1) as (m' & rest' & Hm & _).
  pose proof (merge_from_distinct rest m1) as Hd. rewrite Hm in Hd |- *.
  cbn [sanitize]. rewrite (merge_from_fixed rest' m' Hd). reflexivity.
Qed.

Lemma join_space_cons (w : str) (ws : list str) :
  ws <> [] -> join_space (w :: ws) = w ++ 32%N :: join_space ws.
Proof. destruct ws; [congruence|reflexivity]. Qed.

Lemma merge_from_text rest : forall m,
  join_space (content <$> merge_from m rest)
  = join_space (content <$> (m :: rest))
  /\ length (merge_from m rest) <= S (length rest).
Proof.
  induction rest as [|next rest IH]; intros m; cbn [merge_from]; [auto|].
  destruct (role_eqb (role m) (role next)).
  - destruct (IH {| role := role m;
                    content := content m ++ py " " ++ content next |})
      as [-> Hlen].
    split; [|cbn [length]; lia].
    change (py " ") with [32%N].
    cbn [fmap list_fmap content]. destruct rest as [|m3 rest].
    + reflexivity.
    + cbn [fmap list_fmap]. rewrite !join_space_cons by discriminate.
      rewrite <- !app_assoc. reflexivity.
  - destruct (IH next) as [Htext Hlen]. split; [|cbn [length]; lia].
    destruct (merge_from_head rest next) as (m' & rest' & Hm & _).
    rewrite Hm in Htext |- *. cbn [fmap list_fmap] in Htext |- *.
    rewrite !join_space_cons by discriminate. rewrite Htext. reflexivity.
Qed.

(** X3: [sanitize_history] loses no text: the first entry stays, the record
    does not grow, and the contents behind the first entry, joined by single
    spaces, read the same before and after. *)
Theorem sanitize_keeps_text (h : list message) :
  head (sanitize h) = head h
  /\ length (sanitize h) <= length h
  /\ join_space (content <$> tail (sanitize h))
     = join_space (content <$> tail h).
Proof.
  destruct h as [|m0 [|m1 rest]]; try (repeat split; reflexivity || lia).
  cbn [sanitize head tail length].
  destruct (merge_from_text rest m1) as [Htext Hlen].
  split; [reflexivity|]. split; [lia|exact Htext].
Qed.

(** ** llm.py: [clean_for_tts] *)

Lemma lstrip_by_elem p s c : c ∈ lstrip_by p s -> c ∈ s.
Proof.
  induction s as [|d s IH]; simpl; [auto|].
  destruct (p d); [|auto]. intros H. right. auto.
Qed.

Lemma rstrip_by_elem p s c : c ∈ rstrip_by p s -> c ∈ s.
Proof.
  induction s as [|d s IH]; simpl; [auto|].
  destruct (rstrip_by p s) as [|e r].
  - destruct (p d); [intros H; inversion H|].
    intros ->%list_elem_of_singleton. left.
  - intros [->|H]%elem_of_cons; [left|right; auto].
Qed.

Lemma strip_by_elem p s c : c ∈ strip_by p s -> c ∈ s.
Proof. intros H. apply rstrip_by_elem with p, lstrip_by_elem with p, H. Qed.

Lemma lstrip_by_idem p s : lstrip_by p (lstrip_by p s) = lstrip_by p s.
Proof.
  induction s as [|c s IH]; simpl; [reflexivity|].
  destruct (p c) eqn:E; [exact IH|]. simpl. rewrite E. reflexivity.
Qed.

Lemma rstrip_by_idem p s : rstrip_by p (rstrip_by p s) = rstrip_by p s.
Proof.
  induction s as [|c s IH]; simpl; [reflexivity|].
  destruct (rstrip_by p s) as [|d r] eqn:E.
  - destruct (p c) eqn:Hc; [reflexivity|]. simpl. rewrite Hc. reflexivity.
  - change (rstrip_by p (c :: d :: r))
      with (match rstrip_by p (d :: r) with
            | [] => if p c then [] else [c]
            | x => c :: x
            end).
    rewrite IH. reflexivity.
Qed.

Lemma rstrip_by_lstrip_fixed p r :
  rstrip_by p r = r -> rstrip_by p (lstrip_by p r) = lstrip_by p r.
Proof.
  induction r as [|c r IH]; simpl; [reflexivity|].
  destruct (p c) eqn:Hc.
  - destruct (rstrip_by p r) as [|d r'] eqn:E; [discriminate|].
    intros [= Hr]. apply IH. exact Hr.
  - intros H. simpl. rewrite Hc. exact H.
Qed.

Lemma strip_by_idem p s : strip_by p (strip_by p s) = strip_by p s.
Proof.
  unfold strip_by.
  rewrite (rstrip_by_lstrip_fixed p (rstrip_by p s) (rstrip_by_idem p s)).
  apply lstrip_by_idem.
Qed.

Lemma filter_fixed (keep : char -> bool) (s : str) :
  Forall (fun c => keep c = true) s -> List.filter keep s = s.
Proof.
  induction 1 as [|c s Hc _ IH]; simpl; [reflexivity|].
  rewrite Hc, IH. reflexivity.
Qed.

Lemma clean_for_tts_chars text :
  Forall (fun c => is_markup c = false /\ is_emoji c = false) (clean_for_tts text).
Proof.
  apply Forall_forall. intros c Hc.
  unfold clean_for_tts, strip in Hc. apply strip_by_elem in Hc.
  apply list_elem_of_In in Hc. unfold remove_char, EMOJI_PATTERN_sub in Hc.
  repeat (apply filter_In in Hc as [Hc ?]).
  unfold is_markup.
  repeat match goal with H : negb _ = true |- _ => apply negb_true_iff in H end.
  split; [|assumption].
  repeat match goal with H : (_ =? _)%N = false |- _ => rewrite H; clear H end.
  reflexivity.
Qed.

(** X4: a text cleaned for synthesis holds no [*], [#] or backtick, no
    code point of the emoji class, and neither starts nor ends with
    whitespace. *)
Theorem clean_for_tts_output (text : str) :
  Forall (fun c => is_markup c = false /\ is_emoji c = false) (clean_for_tts text)
  /\ strip (clean_for_tts text) = clean_for_tts text.
Proof.
  split; [apply clean_for_tts_chars|].
  unfold clean_for_tts, strip. apply strip_by_idem.
Qed.

Lemma clean_for_tts_fixed (text : str) :
  clean_for_tts (clean_for_tts text) = clean_for_tts text.
Proof.
  pose proof (clean_for_tts_chars text) as Hchars.
  set (t := clean_for_tts text) in *.
  unfold clean_for_tts at 1. unfold EMOJI_PATTERN_sub, remove_char.
  assert (forall keep, (forall c, is_markup c = false /\ is_emoji c = false ->
                                  keep c = true) ->
                       List.filter keep t = t) as Hfix.
  { intros keep Hkeep. apply filter_fixed.
    eapply Forall_impl; [exact Hchars|]. exact Hkeep. }
  rewrite (Hfix (fun c => negb (is_emoji c)))
    by (intros c [_ ->]; reflexivity).
  rewrite !Hfix;
    try (intros c [Hm _]; unfold is_markup in Hm;
         apply orb_false_iff in Hm as [Hm H96];
         apply orb_false_iff in Hm as [H42 H35];
         rewrite ?H42, ?H35, ?H96; reflexivity).
  subst t. unfold clean_for_tts, strip. apply strip_by_idem.
Qed.

(** X5: [clean_for_tts] is idempotent: cleaning a cleaned text changes
    nothing. *)
Theorem clean_for_tts_idempotent (text : str) :
  clean_for_tts (clean_for_tts text) = clean_for_tts text.
Proof. apply clean_for_tts_fixed. Qed.

(** ** llm.py: what [extract_sentences] puts on the queue *)

Lemma put_if_nonempty_fragments q clean0 :
  exists frs, put_if_nonempty q (clean_for_tts clean0) = q ++ (Some <$> frs)
              /\ Forall speakable frs.
Proof.
  unfold put_if_nonempty, put_nowait.
  destruct (nonempty (clean_for_tts clean0)) eqn:E.
  - exists [clean_for_tts clean0]. split; [reflexivity|].
    constructor; [|constructor]. split; [exact E|apply clean_for_tts_fixed].
  - exists []. split; [rewrite app_nil_r; reflexivity|constructor].
Qed.

Lemma extract_sentences_emits : forall n buffer q,
  length buffer <= n ->
  exists frs,
    snd (extract_sentences buffer q) = q ++ (Some <$> frs)
    /\ Forall speakable frs
    /\ fst (extract_sentences buffer q) `suffix_of` buffer.
Proof.
  induction n as [|n IH]; intros buffer q Hn; rewrite extract_sentences_eq.
  - destruct buffer; [|simpl in Hn; lia].
    exists []. cbn. rewrite app_nil_r. repeat split; [constructor|reflexivity].
  - destruct (SENTENCE_END_search buffer) as [e|] eqn:He.
    + pose proof (SENTENCE_END_search_bounds _ _ He) as Hb.
      destruct (put_if_nonempty_fragments q (strip (take e buffer)))
        as (frs1 & -> & H1).
      destruct (IH (drop e buffer) (q ++ (Some <$> frs1)))
        as (frs2 & -> & H2 & Hsuf); [rewrite length_drop; lia|].
      exists (frs1 ++ frs2). rewrite fmap_app, app_assoc.
      split; [reflexivity|]. split; [apply Forall_app; auto|].
      etransitivity; [exact Hsuf|]. apply suffix_drop.
    + exists []. cbn. rewrite app_nil_r. repeat split; [constructor|reflexivity].
Qed.

Lemma flush_fragment_emits buffer q :
  exists frs, flush_fragment buffer q = q ++ (Some <$> frs) /\ Forall speakable frs.
Proof.
  unfold flush_fragment. destruct (nonempty (strip buffer)).
  - apply put_if_nonempty_fragments.
  - exists []. split; [rewrite app_nil_r; reflexivity|constructor].
Qed.

(** X6: a call of [extract_sentences] only adds to the back of the queue,
    and only fragments that are not empty and already clean, never the end
    sentinel; the remainder it returns is a suffix of the buffer it was
    given. *)
Theorem extract_sentences_queue (buffer : str) (q : queue) :
  exists frs,
    snd (extract_sentences buffer q) = q ++ (Some <$> frs)
    /\ Forall speakable frs
    /\ fst (extract_sentences buffer q) `suffix_of` buffer.
Proof. apply (extract_sentences_emits (length buffer)). lia. Qed.

(** ** pipeline.py: the queues of the two producers *)

Lemma fragments_only_nil : fragments_only [].
Proof. exists []. split; [reflexivity|constructor]. Qed.

Lemma fragments_only_extract buffer q :
  fragments_only q -> fragments_only (snd (extract_sentences buffer q)).
Proof.
  intros (frs & -> & Hfrs).
  destruct (extract_sentences_emits (length buffer) buffer (Some <$> frs))
    as (frs' & -> & Hfrs' & _); [lia|].
  exists (frs ++ frs'). rewrite fmap_app. split; [reflexivity|].
  apply Forall_app; auto.
Qed.

Lemma fragments_only_flush buffer q :
  fragments_only q -> fragments_only (flush_fragment buffer q).
Proof.
  intros (frs & -> & Hfrs).
  destruct (flush_fragment_emits buffer (Some <$> frs)) as (frs' & -> & Hfrs').
  exists (frs ++ frs'). rewrite fmap_app. split; [reflexivity|].
  apply Forall_app; auto.
Qed.

Lemma producer_step_fragments st content :
  fragments_only (sentences_queue st) ->
  fragments_only (sentences_queue (producer_step st content)).
Proof.
  intros Hq. unfold producer_step.
  destruct (search_detected st); cbn [negb].
  - destruct (is_search st); cbn [negb]; [exact Hq|].
    pose proof (fragments_only_extract (sentence_buffer st ++ content) _ Hq) as H.
    destruct (extract_sentences _ _). exact H.
  - destruct (contains _ _); [exact Hq|].
    destruct (_ || _); [|exact Hq].
    pose proof (fragments_only_extract (full_response st ++ content) _ Hq) as H.
    destruct (extract_sentences _ _). exact H.
Qed.

Lemma search_producer_step_fragments st content :
  fragments_only (sentences_queue st) ->
  fragments_only (sentences_queue (search_producer_step st content)).
Proof.
  intros Hq. unfold search_producer_step.
  pose proof (fragments_only_extract (sentence_buffer st ++ content) _ Hq) as H.
  destruct (extract_sentences _ _). exact H.
Qed.

Lemma fold_fragments (step : producer_state -> str -> producer_state) :
  (forall st content, fragments_only (sentences_queue st) ->
                      fragments_only (sentences_queue (step st content))) ->
  forall tokens st,
    fragments_only (sentences_queue st) ->
    fragments_only (sentences_queue (fold_left step tokens st)).
Proof.
  intros Hstep tokens. induction tokens as [|c tokens IH]; intros st Hq; [exact Hq|].
  cbn [fold_left]. apply IH, Hstep, Hq.
Qed.

(** X7: the queue either producer leaves holds exactly one end sentinel, in
    last place, behind fragments that are not empty. *)
Theorem producers_end_with_one_sentinel (tokens : list str) :
  (exists frs, sentences_queue (llm_producer tokens) = (Some <$> frs) ++ [None]
               /\ Forall speakable frs)
  /\ (exists frs,
        sentences_queue (search_llm_producer tokens) = (Some <$> frs) ++ [None]
        /\ Forall speakable frs).
Proof.
  split.
  - unfold llm_producer, producer_finally. cbn [sentences_queue].
    pose proof (fold_fragments producer_step producer_step_fragments tokens
                  producer_init fragments_only_nil) as Hq.
    set (st := fold_left producer_step tokens producer_init) in *.
    assert (fragments_only
              (if negb (is_search st)
               then flush_fragment (sentence_buffer st) (sentences_queue st)
               else sentences_queue st)) as (frs & -> & Hfrs)
      by (destruct (negb (is_search st)); [apply fragments_only_flush|]; exact Hq).
    exists frs. auto.
  - unfold search_llm_producer. cbn [sentences_queue].
    pose proof (fold_fragments search_producer_step search_producer_step_fragments
                  tokens producer_init fragments_only_nil) as Hq.
    set (st := fold_left search_producer_step tokens producer_init) in *.
    destruct (fragments_only_flush (sentence_buffer st) _ Hq) as (frs & -> & Hfrs).
    exists frs. auto.
Qed.

Lemma starts_with_app needle : forall s t,
  starts_with needle s = true -> starts_with needle (s ++ t) = true.
Proof.
  induction needle as [|a needle IH]; intros [|b s] t; simpl; try congruence.
  intros [Hab Hrest]%andb_true_iff. rewrite Hab, (IH _ _ Hrest). reflexivity.
Qed.

Lemma contains_app needle s t :
  contains needle s = true -> contains needle (s ++ t) = true.
Proof.
  induction s as [|b s IH]; simpl.
  - rewrite orb_false_r. intros H. destruct needle; [|discriminate].
    destruct t; reflexivity.
  - intros [H | H]%orb_true_iff.
    + apply (starts_with_app needle (b :: s) t) in H. simpl in H. rewrite H.
      reflexivity.
    + rewrite (IH H). apply orb_true_r.
Qed.

Lemma producer_step_search_leg st content :
  search_leg_silent st -> search_leg_silent (producer_step st content).
Proof.
  intros [Hund Hsearch]. unfold producer_step.
  destruct (search_detected st) eqn:Hdet; cbn [negb].
  - destruct (is_search st) eqn:Hs; cbn [negb].
    + destruct (Hsearch eq_refl) as [Hq Hm].
      split; cbn; [discriminate|]. intros _. split; [exact Hq|].
      apply contains_app, Hm.
    + destruct (extract_sentences _ _). split; cbn; discriminate.
  - destruct (Hund eq_refl) as [Hs Hq].
    destruct (contains SEARCH_MARKER (full_response st ++ content)) eqn:Hm.
    + split; cbn; [discriminate|]. auto.
    + destruct (_ || _).
      * destruct (extract_sentences _ _). split; cbn; discriminate.
      * split; cbn; [auto|]. rewrite Hs. discriminate.
Qed.

Lemma fold_search_leg tokens : forall st,
  search_leg_silent st -> search_leg_silent (fold_left producer_step tokens st).
Proof.
  induction tokens as [|c tokens IH]; intros st H; [exact H|].
  cbn [fold_left]. apply IH, producer_step_search_leg, H.
Qed.

(** X8: when the first leg ends with the decision search-needed, nothing of
    it was queued for synthesis, only the end sentinel, and the response
    holds the directive marker. *)
Theorem search_leg_queues_sentinel_only (tokens : list str) :
  is_search (llm_producer tokens) = true ->
  sentences_queue (llm_producer tokens) = [None]
  /\ contains SEARCH_MARKER (full_response (llm_producer tokens)) = true.
Proof.
  unfold llm_producer, producer_finally.
  cbn [is_search sentences_queue full_response].
  intros Hs.
  destruct (fold_search_leg tokens producer_init) as [_ H].
  { split; cbn; [auto|discriminate]. }
  destruct (H Hs) as [Hq Hm]. rewrite Hs, Hq. cbn [negb]. auto.
Qed.

Lemma search_leg_queues_sentinel_only_witness :
  sentences_queue
    (llm_producer [py "[SEARCH: Mumbai "; py "weather]"])
  = [None]
  /\ contains SEARCH_MARKER
       (full_response
          (llm_producer [py "[SEARCH: Mumbai "; py "weather]"]))
     = true.
Proof.
  apply (search_leg_queues_sentinel_only
           [py "[SEARCH: Mumbai "; py "weather]"]).
  vm_compute. reflexivity.
Defined.

Lemma search_producer_fold tokens : forall st,
  let st' := fold_left search_producer_step tokens st in
  (sentence_buffer st', sentences_queue st')
  = fold_left feed tokens (sentence_buffer st, sentences_queue st)
  /\ full_response st' = full_response st ++ concat tokens.
Proof.
  induction tokens as [|c tokens IH]; intros st; cbn zeta.
  - cbn. rewrite app_nil_r. auto.
  - assert ((sentence_buffer (search_producer_step st c),
             sentences_queue (search_producer_step st c))
            = feed (sentence_buffer st, sentences_queue st) c
            /\ full_response (search_producer_step st c) = full_response st ++ c)
      as [Hfeed Hfull].
    { unfold search_producer_step, feed. cbn [fst snd].
      destruct (extract_sentences (sentence_buffer st ++ c) (sentences_queue st)).
      auto. }
    cbn [fold_left concat]. specialize (IH (search_producer_step st c)).
    cbn zeta in IH. destruct IH as [-> ->].
    rewrite Hfeed, Hfull, <- app_assoc. auto.
Qed.

Lemma producer_step_buffering st content :
  search_detected st = true -> is_search st = false ->
  let st' := producer_step st content in
  search_detected st' = true /\ is_search st' = false
  /\ (sentence_buffer st', sentences_queue st')
     = feed (sentence_buffer st, sentences_queue st) content.
Proof.
  intros Hdet Hs. cbn zeta. unfold producer_step, feed. rewrite Hdet, Hs.
  cbn [negb fst snd].
  destruct (extract_sentences (sentence_buffer st ++ content) (sentences_queue st)).
  cbn. auto.
Qed.

Lemma producer_fold_buffering tokens : forall st,
  search_detected st = true -> is_search st = false ->
  let st' := fold_left producer_step tokens st in
  is_search st' = false
  /\ (sentence_buffer st', sentences_queue st')
     = fold_left feed tokens (sentence_buffer st, sentences_queue st).
Proof.
  induction tokens as [|c tokens IH]; intros st Hdet Hs; cbn zeta; [auto|].
  cbn [fold_left].
  destruct (producer_step_buffering st c Hdet Hs) as (Hdet' & Hs' & Hfeed).
  destruct (IH _ Hdet' Hs') as [-> ->]. rewrite Hfeed. auto.
Qed.

Lemma producer_fold_search tokens : forall st,
  search_detected st = true -> is_search st = true ->
  is_search (fold_left producer_step tokens st) = true.
Proof.
  induction tokens as [|c tokens IH]; intros st Hdet Hs; [exact Hs|].
  cbn [fold_left]. apply IH; unfold producer_step; rewrite Hdet, Hs; reflexivity.
Qed.

Lemma producer_fold_response tokens : forall st,
  full_response (fold_left producer_step tokens st)
  = full_response st ++ concat tokens.
Proof.
  induction tokens as [|c tokens IH]; intros st.
  - cbn. rewrite app_nil_r. reflexivity.
  - cbn [fold_left concat]. rewrite IH, app_assoc. f_equal.
    unfold producer_step.
    repeat match goal with
           | |- context [if ?b then _ else _] => destruct b
           | |- context [extract_sentences ?b ?q] => destruct (extract_sentences b q)
           end; reflexivity.
Qed.

Lemma decided_false text : decided text = false -> undecided text.
Proof.
  unfold decided, undecided. intros H.
  apply orb_false_iff in H as [H Hend]. apply orb_false_iff in H as [Hm Hlen].
  split; [exact Hm|]. split; [apply Nat.ltb_ge, Hlen|].
  apply bool_decide_eq_false in Hend.
  destruct (SENTENCE_END_search text); [|reflexivity].
  exfalso. apply Hend. eauto.
Qed.

Lemma flush_of_feeds chunks :
  flush_fragment (fst (fold_left feed chunks ([], [])))
                 (snd (fold_left feed chunks ([], [])))
  = drain (concat chunks) [].
Proof. apply (incremental_from chunks [] []). reflexivity. Qed.

Lemma producer_step_marker st content :
  search_detected st = false ->
  contains SEARCH_MARKER (full_response st ++ content) = true ->
  search_detected (producer_step st content) = true
  /\ is_search (producer_step st content) = true.
Proof.
  intros Hdet Hm. unfold producer_step. rewrite Hdet, Hm. auto.
Qed.

Lemma producer_step_direct st content :
  search_detected st = false ->
  contains SEARCH_MARKER (full_response st ++ content) = false ->
  decided (full_response st ++ content) = true ->
  search_detected (producer_step st content) = true
  /\ is_search (producer_step st content) = false
  /\ (sentence_buffer (producer_step st content),
      sentences_queue (producer_step st content))
     = extract_sentences (full_response st ++ content) (sentences_queue st).
Proof.
  intros Hdet Hm Hdec. unfold decided in Hdec. rewrite Hm in Hdec.
  cbn [orb] in Hdec. unfold producer_step. rewrite Hdet, Hm, Hdec. cbn [negb].
  destruct (extract_sentences (full_response st ++ content) (sentences_queue st)).
  auto.
Qed.

Lemma producer_fold_direct tokens : forall st,
  search_detected st = false -> is_search st = false ->
  sentence_buffer st = [] -> sentences_queue st = [] ->
  decided (full_response st) = false ->
  (exists k, decided (full_response st ++ concat (take k tokens)) = true) ->
  is_search (fold_left producer_step tokens st) = false ->
  let st' := fold_left producer_step tokens st in
  flush_fragment (sentence_buffer st') (sentences_queue st')
  = drain (full_response st ++ concat tokens) [].
Proof.
  induction tokens as [|c tokens IH];
    intros st Hdet Hs Hbuf Hq Hfull [k Hk] Hend; cbn zeta.
  - rewrite take_nil in Hk. cbn in Hk. rewrite app_nil_r in Hk. congruence.
  - cbn [fold_left concat] in Hend |- *. rewrite app_assoc.
    destruct (decided (full_response st ++ c)) eqn:Hdec.
    + (* the decision fires on this content *)
      destruct (contains SEARCH_MARKER (full_response st ++ c)) eqn:Hm.
      * destruct (producer_step_marker st c Hdet Hm) as [Hdet' Hs'].
        rewrite (producer_fold_search tokens _ Hdet' Hs') in Hend. discriminate.
      * destruct (producer_step_direct st c Hdet Hm Hdec) as (Hdet' & Hs' & Hext).
        destruct (producer_fold_buffering tokens _ Hdet' Hs') as [_ Hfeed].
        cbn zeta in Hfeed. rewrite Hext, Hq in Hfeed.
        set (st' := fold_left producer_step tokens (producer_step st c)) in *.
        change (sentence_buffer st')
          with (fst (sentence_buffer st', sentences_queue st')).
        change (sentences_queue st')
          with (snd (sentence_buffer st', sentences_queue st')) at 2.
        rewrite Hfeed.
        apply (flush_of_feeds ((full_response st ++ c) :: tokens)).
    + (* still undecided *)
      rewrite producer_step_undecided in Hend |- *
        by (try exact Hdet; apply decided_false, Hdec).
      apply IH; cbn [search_detected is_search sentence_buffer sentences_queue
                       full_response]; auto.
      destruct k as [|k].
      * cbn in Hk. rewrite app_nil_r in Hk. congruence.
      * exists k. cbn [take concat] in Hk. rewrite app_assoc in Hk. exact Hk.
Qed.

(** X9: the queue of the second leg is the one the whole response gives
    when segmented in one piece, then the end sentinel: how the model cuts
    its answer into contents changes nothing of what is spoken. *)
Theorem second_leg_queue (tokens : list str) :
  sentences_queue (search_llm_producer tokens)
  = one_shot (concat tokens) ++ [None]
  /\ full_response (search_llm_producer tokens) = concat tokens.
Proof.
  unfold search_llm_producer. cbn [sentences_queue full_response].
  destruct (search_producer_fold tokens producer_init) as [Hfeed Hfull].
  cbn zeta in Hfeed, Hfull. split; [|exact Hfull].
  unfold put_nowait. f_equal.
  set (st := fold_left search_producer_step tokens producer_init) in *.
  change (sentence_buffer st) with (fst (sentence_buffer st, sentences_queue st)).
  change (sentences_queue st)
    with (snd (sentence_buffer st, sentences_queue st)) at 2.
  rewrite Hfeed. apply flush_of_feeds.
Qed.

(** X10: when the first leg ends with the decision direct-answer and the
    decision did fire on some content, its queue too is the one the whole
    response gives when segmented in one piece, then the end sentinel. *)
Theorem first_leg_direct_queue (tokens : list str) :
  is_search (llm_producer tokens) = false ->
  (exists k, decided (concat (take k tokens)) = true) ->
  sentences_queue (llm_producer tokens) = one_shot (concat tokens) ++ [None].
Proof.
  unfold llm_producer, producer_finally. cbn [is_search sentences_queue].
  intros Hs Hk. rewrite Hs. cbn [negb]. unfold put_nowait. f_equal.
  apply (producer_fold_direct tokens producer_init); auto.
Qed.

Lemma first_leg_direct_queue_witness :
  sentences_queue (llm_producer [py "Sure. It is "; py "late. Good"; py " night"])
  = one_shot (py "Sure. It is late. Good night") ++ [None].
Proof.
  apply (first_leg_direct_queue [py "Sure. It is "; py "late. Good"; py " night"]).
  - vm_compute. reflexivity.
  - exists 1. vm_compute. reflexivity.
Defined.

(** The response text both producers accumulate is the concatenation of the
    contents received, whatever the decision. *)
Lemma producers_accumulate_response (tokens : list str) :
  full_response (llm_producer tokens) = concat tokens
  /\ full_response (search_llm_producer tokens) = concat tokens
  /\ search_detected (llm_producer tokens) = true.
Proof.
  split; [|split; [|reflexivity]].
  - unfold llm_producer, producer_finally. cbn [full_response].
    apply (producer_fold_response tokens producer_init).
  - unfold search_llm_producer. cbn [full_response].
    apply (search_producer_fold tokens producer_init).
Qed.

(** ** pipeline.py: the directive pattern *)

Lemma SEARCH_directive_eq text :
  SEARCH_directive text =
  match (if starts_with SEARCH_MARKER text
         then directive_after (ws_run (drop 8 text)) (drop 8 text)
         else None) with
  | Some g => Some g
  | None =>
      match text with
      | [] => None
      | _ :: text' => SEARCH_directive text'
      end
  end.
Proof. destruct text; reflexivity. Qed.

Lemma starts_with_prefix needle s : starts_with needle (needle ++ s) = true.
Proof.
  induction needle as [|a needle IH]; [destruct s; reflexivity|].
  simpl. rewrite N.eqb_refl, IH. reflexivity.
Qed.

Lemma until_bracket_closed q rest :
  Forall (fun c => c <> 93%N /\ c <> 10%N) q ->
  until_bracket (q ++ 93%N :: rest) = Some q.
Proof.
  induction 1 as [|c q [H93 H10] _ IH]; [reflexivity|].
  cbn [app until_bracket].
  rewrite (proj2 (N.eqb_neq _ _) H93), (proj2 (N.eqb_neq _ _) H10), IH.
  reflexivity.
Qed.

Lemma ws_run_spaces_then w c s :
  forallb is_space w = true -> is_space c = false ->
  ws_run (w ++ c :: s) = length w.
Proof.
  intros Hw Hc. induction w as [|d w IH]; simpl; [rewrite Hc; reflexivity|].
  simpl in Hw. apply andb_true_iff in Hw as [Hd Hw]. rewrite Hd, (IH Hw).
  reflexivity.
Qed.

Lemma directive_after_first k s g :
  directive_group (drop k s) = Some g -> directive_after k s = Some g.
Proof. intros H. destruct k; cbn [directive_after]; rewrite H; reflexivity. Qed.

(** X11: a directive written as the system prompt asks, the marker, any
    whitespace, a query without closing bracket or newline that starts with
    a visible character, then the closing bracket, is read back as that
    query, whatever follows it. *)
Theorem SEARCH_directive_reads_query (w query rest : str) (c : char) (q : str) :
  query = c :: q ->
  is_space c = false ->
  Forall (fun x => x <> 93%N /\ x <> 10%N) query ->
  forallb is_space w = true ->
  SEARCH_directive (SEARCH_MARKER ++ w ++ query ++ py "]" ++ rest) = Some query.
Proof.
  intros -> Hc Hq Hw. rewrite SEARCH_directive_eq, starts_with_prefix.
  rewrite (drop_app_length' SEARCH_MARKER) by reflexivity.
  change (py "]" ++ rest) with (93%N :: rest).
  assert (directive_after (ws_run (w ++ (c :: q) ++ 93%N :: rest))
            (w ++ (c :: q) ++ 93%N :: rest) = Some (c :: q)) as ->; [|reflexivity].
  cbn [app]. rewrite (ws_run_spaces_then w c _ Hw Hc).
  apply directive_after_first. rewrite drop_app_length.
  cbn [directive_group]. inversion Hq as [|? ? [_ H10] Hq']; subst.
  rewrite (proj2 (N.eqb_neq _ _) H10).
  exact (f_equal (fmap (cons c)) (until_bracket_closed q rest Hq')).
Qed.

Lemma SEARCH_directive_reads_query_witness :
  SEARCH_directive (py "[SEARCH:  Mumbai weather today] and more")
  = Some (py "Mumbai weather today").
Proof.
  apply (SEARCH_directive_reads_query (py "  ") (py "Mumbai weather today")
           (py " and more") 77%N (py "umbai weather today")).
  - reflexivity.
  - reflexivity.
  - vm_compute. repeat constructor; discriminate.
  - reflexivity.
Defined.

Lemma contains_starts needle s :
  starts_with needle s = true -> contains needle s = true.
Proof. intros H. destruct s; simpl in *; rewrite H; reflexivity. Qed.

Lemma contains_later needle pre s :
  contains needle s = true -> contains needle (pre ++ s) = true.
Proof.
  intros H. induction pre as [|a pre IH]; [exact H|].
  cbn [app contains]. rewrite IH. apply orb_true_r.
Qed.

Lemma until_bracket_sound s : forall g,
  until_bracket s = Some g ->
  Forall (fun c => c <> 10%N) g /\ exists rest, s = g ++ 93%N :: rest.
Proof.
  induction s as [|c s IH]; intros g; cbn [until_bracket]; [discriminate|].
  destruct (c =? 93)%N eqn:H93.
  - intros [= <-]. apply N.eqb_eq in H93 as ->. split; [constructor|]. eauto.
  - destruct (c =? 10)%N eqn:H10; [discriminate|].
    destruct (until_bracket s) as [g'|]; [|discriminate]. intros [= <-].
    destruct (IH g' eq_refl) as [Hg (rest & ->)].
    apply N.eqb_neq in H10. split; [constructor; assumption|]. eauto.
Qed.

Lemma directive_group_sound s g :
  directive_group s = Some g ->
  nonempty g = true /\ Forall (fun c => c <> 10%N) g
  /\ exists rest, s = g ++ 93%N :: rest.
Proof.
  destruct s as [|c s]; cbn [directive_group]; [discriminate|].
  destruct (c =? 10)%N eqn:H10; [discriminate|].
  destruct (until_bracket s) as [g'|] eqn:E; [|discriminate]. intros [= <-].
  destruct (until_bracket_sound s g' E) as [Hg (rest & ->)].
  apply N.eqb_neq in H10. split; [reflexivity|].
  split; [constructor; assumption|]. eauto.
Qed.

Lemma directive_after_sound k : forall s g,
  directive_after k s = Some g -> exists j, directive_group (drop j s) = Some g.
Proof.
  induction k as [|k IH]; intros s g; cbn [directive_after].
  - destruct (directive_group (drop 0 s)) eqn:E; [|discriminate].
    intros [= <-]. eauto.
  - destruct (directive_group (drop (S k) s)) eqn:E.
    + intros [= <-]. eauto.
    + apply IH.
Qed.

Lemma SEARCH_directive_sound text : forall g,
  SEARCH_directive text = Some g ->
  nonempty g = true
  /\ Forall (fun c => c <> 10%N) g
  /\ contains SEARCH_MARKER text = true
  /\ contains (g ++ py "]") text = true.
Proof.
  induction text as [|a text IH]; intros g; rewrite SEARCH_directive_eq.
  - cbn. discriminate.
  - destruct (starts_with SEARCH_MARKER (a :: text)) eqn:Hstart.
    + destruct (directive_after _ _) as [g'|] eqn:Hafter.
      * intros [= <-].
        apply directive_after_sound in Hafter as [j Hj].
        apply directive_group_sound in Hj as (Hne & Hnl & rest & Hdrop).
        split; [exact Hne|]. split; [exact Hnl|].
        split; [apply contains_starts, Hstart|].
        rewrite <- (take_drop 8 (a :: text)).
        rewrite <- (take_drop j (drop 8 (a :: text))), Hdrop.
        apply contains_later, contains_later, contains_starts.
        change (93%N :: rest) with (py "]" ++ rest).
        rewrite app_assoc. apply starts_with_prefix.
      * intros H. destruct (IH g H) as (? & ? & Hm & Hg).
        repeat split; try assumption.
        -- apply (contains_later SEARCH_MARKER [a]), Hm.
        -- apply (contains_later _ [a]), Hg.
    + intros H. destruct (IH g H) as (? & ? & Hm & Hg).
      repeat split; try assumption.
      * apply (contains_later SEARCH_MARKER [a]), Hm.
      * apply (contains_later _ [a]), Hg.
Qed.

Lemma lstrip_by_nil p s : lstrip_by p s = [] <-> forallb p s = true.
Proof.
  induction s as [|c s IH]; simpl; [tauto|].
  destruct (p c); simpl; [exact IH|]. split; discriminate.
Qed.

Lemma strip_nil s : strip s = [] <-> forallb is_space s = true.
Proof.
  unfold strip, strip_by. split.
  - intros H. apply lstrip_by_nil in H.
    destruct (rstrip_by is_space s) as [|c r] eqn:E; [apply rstrip_by_nil, E|].
    exfalso.
    assert (rstrip_by is_space (c :: r) = []) as Hr
      by (apply rstrip_by_nil, H).
    rewrite <- E, rstrip_by_idem, E in Hr. discriminate.
  - intros H. apply rstrip_by_nil in H. rewrite H. reflexivity.
Qed.

Lemma starts_with_inv needle : forall s,
  starts_with needle s = true -> exists rest, s = needle ++ rest.
Proof.
  induction needle as [|a needle IH]; intros s H; [exists s; reflexivity|].
  destruct s as [|b s]; [discriminate|]. simpl in H.
  apply andb_true_iff in H as [Hab H]. apply N.eqb_eq in Hab as ->.
  destruct (IH s H) as [rest ->]. exists rest. reflexivity.
Qed.

Lemma contains_inv needle s :
  contains needle s = true ->
  exists before after, s = before ++ needle ++ after.
Proof.
  induction s as [|c s IH]; cbn [contains]; intros H.
  - rewrite orb_false_r in H. apply starts_with_inv in H as [rest ->].
    exists [], rest. reflexivity.
  - apply orb_true_iff in H as [H | H].
    + apply starts_with_inv in H as [rest ->]. exists [], rest. reflexivity.
    + destruct (IH H) as (before & after & ->).
      exists (c :: before), after. reflexivity.
Qed.

Lemma contains_infix before needle after :
  contains needle (before ++ needle ++ after) = true.
Proof. apply contains_later, contains_starts, starts_with_prefix. Qed.

Lemma lstrip_by_suffix p s : exists pre, s = pre ++ lstrip_by p s.
Proof.
  induction s as [|c s [pre IH]]; [exists []; reflexivity|].
  simpl. destruct (p c); [|exists []; reflexivity].
  exists (c :: pre). simpl. congruence.
Qed.

Lemma rstrip_by_prefix p s : exists post, s = rstrip_by p s ++ post.
Proof.
  induction s as [|c s [post IH]]; [exists []; reflexivity|].
  simpl. destruct (rstrip_by p s) as [|d r].
  - destruct (p c); [exists (c :: s)|exists s]; reflexivity.
  - exists post. simpl in IH |- *. congruence.
Qed.

Lemma strip_by_infix p s : exists pre post, s = pre ++ strip_by p s ++ post.
Proof.
  unfold strip_by.
  destruct (rstrip_by_prefix p s) as [post Hpost].
  destruct (lstrip_by_suffix p (rstrip_by p s)) as [pre Hpre].
  exists pre, post. rewrite app_assoc, <- Hpre. exact Hpost.
Qed.

(** X12: the query a turn reads from the response is group 1 of the
    directive pattern with the whitespace around it stripped.  Group 1 is
    never empty; the query holds no newline, has no whitespace at either
    end and stands in the response, which holds the marker; it is empty
    exactly when group 1 is whitespace only. *)
Theorem SEARCH_directive_query (text g : str) :
  SEARCH_directive text = Some g ->
  nonempty g = true
  /\ Forall (fun c => c <> 10%N) (strip g)
  /\ strip (strip g) = strip g
  /\ (strip g = [] <-> forallb is_space g = true)
  /\ contains SEARCH_MARKER text = true
  /\ contains (strip g) text = true.
Proof.
  intros (Hne & Hnl & Hmarker & Hin)%SEARCH_directive_sound.
  split; [exact Hne|].
  split.
  { apply Forall_forall. intros c Hc%strip_by_elem.
    exact (proj1 (Forall_forall _ _) Hnl c Hc). }
  split; [apply strip_by_idem|].
  split; [apply strip_nil|].
  split; [exact Hmarker|].
  apply contains_inv in Hin as (before & after & ->).
  destruct (strip_by_infix is_space g) as (pre & post & Hg).
  fold (strip g) in Hg. rewrite Hg at 2.
  rewrite <- !app_assoc, (app_assoc before pre).
  apply contains_infix.
Qed.

Lemma SEARCH_directive_query_witness :
  SEARCH_directive (py "[SEARCH: ]") = Some (py " ")
  /\ strip (py " ") = []
  /\ SEARCH_directive (py "Sure. [SEARCH:  Mumbai weather ] ok")
     = Some (py "Mumbai weather ")
  /\ contains (py "Mumbai weather") (py "Sure. [SEARCH:  Mumbai weather ] ok")
     = true.
Proof.
  split; [reflexivity|].
  split.
  { apply (proj1 (proj2 (proj2 (proj2
             (SEARCH_directive_query (py "[SEARCH: ]") (py " ") eq_refl))))).
    reflexivity. }
  split; [reflexivity|].
  exact (proj2 (proj2 (proj2 (proj2 (proj2
           (SEARCH_directive_query (py "Sure. [SEARCH:  Mumbai weather ] ok")
              (py "Mumbai weather ") eq_refl)))))).
Defined.

(** ** search.py: hits with a missing field *)

Lemma for_each_format_defect results :
  (exists r, r ∈ results /\ (r !! py "title" = None \/ r !! py "body" = None)) ->
  for_each format_hit results = Raises (Exception (py "'title'"))
  \/ for_each format_hit results = Raises (Exception (py "'body'")).
Proof.
  induction results as [|r0 results IH]; intros (r & Hin & Hdef).
  - inversion Hin.
  - cbn [for_each]. unfold format_hit at 1 3, getitem, bind.
    destruct (r0 !! py "title") as [title|] eqn:Ht; [|left; reflexivity].
    destruct (r0 !! py "body") as [body|] eqn:Hb; [|right; reflexivity].
    apply elem_of_cons in Hin as [-> | Hin].
    { destruct Hdef; congruence. }
    destruct IH as [-> | ->]; [eauto|left|right]; reflexivity.
Qed.

(** X13: when one hit of the provider lacks its title or its body, the
    whole search is answered by the error text naming the missing key; the
    complete hits are not returned. *)
Theorem web_search_defective_hit (ddgs : provider) (query : str) (n : nat)
    (results : list hit) :
  ddgs query n = Returns results ->
  (exists r, r ∈ results /\ (r !! py "title" = None \/ r !! py "body" = None)) ->
  web_search ddgs query n = Returns (py "Search error: 'title'")
  \/ web_search ddgs query n = Returns (py "Search error: 'body'").
Proof.
  intros Hres Hdef. unfold web_search, web_search_try, bind. rewrite Hres.
  destruct results as [|r0 results].
  - destruct Hdef as (r & Hin & _). inversion Hin.
  - destruct (for_each_format_defect (r0 :: results) Hdef) as [-> | ->];
      [left|right]; reflexivity.
Qed.

Lemma web_search_defective_hit_witness :
  let good : hit := {[ py "title" := py "Mumbai"; py "body" := py "Sunny" ]} in
  let bad : hit := {[ py "title" := py "Pune" ]} in
  web_search (fun _ _ => Returns [good; bad]) (py "weather") 3
  = Returns (py "Search error: 'title'")
  \/ web_search (fun _ _ => Returns [good; bad]) (py "weather") 3
     = Returns (py "Search error: 'body'").
Proof.
  intros good bad.
  apply (web_search_defective_hit (fun _ _ => Returns [good; bad])
           (py "weather") 3 [good; bad] eq_refl).
  exists bad. split; [right; left|right; vm_compute; reflexivity].
Defined.

(** ** search.py: [clean_for_search] *)

Lemma split_from_nonempty s : forall cur,
  nonempty cur = true -> split_from cur s <> [].
Proof.
  induction s as [|c s IH]; intros cur Hcur; simpl.
  - rewrite Hcur. discriminate.
  - destruct (is_space c); [rewrite Hcur; discriminate|].
    apply IH. destruct cur; reflexivity.
Qed.

Lemma split_nil s : split s = [] <-> forallb is_space s = true.
Proof.
  unfold split. induction s as [|c s IH]; simpl; [tauto|].
  destruct (is_space c); simpl; [exact IH|].
  split; [|discriminate]. intros H. exfalso.
  apply (split_from_nonempty s ([] ++ [c]) eq_refl H).
Qed.

Lemma filter_filter (keep : str -> bool) (ws : list str) :
  List.filter keep (List.filter keep ws) = List.filter keep ws.
Proof.
  induction ws as [|w ws IH]; simpl; [reflexivity|].
  destruct (keep w) eqn:E; simpl; [rewrite E, IH|]; auto.
Qed.

Lemma join_space_nil ws :
  Forall (fun w => is_word w = true) ws -> join_space ws = [] -> ws = [].
Proof.
  destruct ws as [|w ws]; [reflexivity|]. intros Hall Hj. exfalso.
  apply Forall_inv in Hall. apply andb_true_iff in Hall as [Hne _].
  destruct w; [discriminate|]. destruct ws; discriminate.
Qed.

(** X14: the query [clean_for_search] returns is empty only for a blank
    utterance, and it never starts or ends with whitespace. *)
Theorem clean_for_search_nonblank (lower : str -> str) (transcript : str) :
  (clean_for_search lower transcript = [] <-> split transcript = [])
  /\ strip (clean_for_search lower transcript) = clean_for_search lower transcript.
Proof.
  unfold clean_for_search.
  set (kept := List.filter (fun w => negb (is_filler lower w)) (split transcript)).
  assert (Forall (fun w => is_word w = true) kept) as Hkept
    by apply filter_words, split_words.
  rewrite (strip_join_space kept Hkept).
  destruct (length (join_space kept) <? 5) eqn:Hlen.
  - split; [|apply strip_by_idem].
    rewrite strip_nil, split_nil. reflexivity.
  - apply Nat.ltb_ge in Hlen. split; [|apply strip_join_space, Hkept].
    split.
    + intros H. rewrite H in Hlen. simpl in Hlen. lia.
    + intros H. subst kept. rewrite H in Hlen. simpl in Hlen. lia.
Qed.

(** X15: [clean_for_search] is idempotent: cleaning a cleaned query returns
    it unchanged. *)
Theorem clean_for_search_idempotent (lower : str -> str) (transcript : str) :
  clean_for_search lower (clean_for_search lower transcript)
  = clean_for_search lower transcript.
Proof.
  set (keep := fun w => negb (is_filler lower w)).
  set (kept := List.filter keep (split transcript)).
  assert (Forall (fun w => is_word w = true) kept) as Hkept
    by apply filter_words, split_words.
  assert (clean_for_search lower transcript
          = if length (join_space kept) <? 5 then strip transcript
            else join_space kept) as ->.
  { unfold clean_for_search. fold keep. fold kept.
    rewrite (strip_join_space kept Hkept). reflexivity. }
  destruct (length (join_space kept) <? 5) eqn:Hlen; unfold clean_for_search;
    fold keep.
  - rewrite split_strip. fold kept.
    rewrite (strip_join_space kept Hkept), Hlen. apply strip_by_idem.
  - assert (List.filter keep kept = kept) as Hff
      by (unfold kept; apply filter_filter).
    rewrite (split_join_space kept Hkept), Hff.
    rewrite (strip_join_space kept Hkept), Hlen. reflexivity.
Qed.

(** ** search.py: [query_similarity] *)

(** X16: [query_similarity] gives the same value for two queries taken in
    either order. *)
Theorem query_similarity_symmetric (lower : str -> str) (q1 q2 : str) :
  query_similarity lower q1 q2 = query_similarity lower q2 q1.
Proof. apply query_similarity_sym. Qed.

Lemma ratio_range (shared n1 n2 : nat) :
  shared <= n1 -> n1 <> 0 ->
  (0 <= inject_Z (Z.of_nat shared) / inject_Z (Z.of_nat (Nat.max n1 n2)) <= 1)%Q.
Proof.
  intros Hle Hn.
  rewrite (Z_of_nat_pos (Nat.max n1 n2)) by lia.
  rewrite <- Qmake_Qdiv. unfold Qle. cbn [Qnum Qden].
  rewrite <- (Z_of_nat_pos (Nat.max n1 n2)) by lia. lia.
Qed.

(** X17: [query_similarity] lies between 0 and 1, and a query with at least
    one word has similarity 1 with itself. *)
Theorem query_similarity_range (lower : str -> str) (q1 q2 : str) :
  (0 <= query_similarity lower q1 q2 <= 1)%Q
  /\ (word_set lower q1 <> ∅ -> (query_similarity lower q1 q1 == 1)%Q).
Proof.
  unfold query_similarity.
  set (w1 := word_set lower q1). set (w2 := word_set lower q2). clearbody w1 w2.
  split.
  - destruct (bool_decide (w1 = ∅)) eqn:E1; [split; discriminate|].
    destruct (bool_decide (w2 = ∅)) eqn:E2; [split; discriminate|]. cbn [orb].
    apply bool_decide_eq_false in E1. apply word_set_size_pos in E1.
    assert (size (w1 ∩ w2) <= size w1) as Hle
      by apply subseteq_size, intersection_subseteq_l.
    revert Hle. generalize (size (w1 ∩ w2)). intros shared Hle.
    apply ratio_range; assumption.
  - intros Hne. rewrite (bool_decide_eq_false_2 _ Hne). cbn [orb].
    assert (w1 ∩ w1 = w1) as -> by apply (idemp_L (∩)).
    rewrite Nat.max_id. apply word_set_size_pos in Hne.
    rewrite (Z_of_nat_pos (size w1)) by exact Hne.
    rewrite <- Qmake_Qdiv. unfold Qeq. cbn [Qnum Qden]. lia.
Qed.

Lemma query_similarity_range_witness :
  (query_similarity ascii_lower (py "Mumbai weather") (py "Mumbai weather") == 1)%Q.
Proof.
  apply (query_similarity_range ascii_lower (py "Mumbai weather") (py "")).
  intros H. apply (f_equal size) in H. vm_compute in H. discriminate.
Defined.

(** ** llm.py: [stream_tokens] *)

Section TokenStreamFacts.

Variable json_content : str -> decoded.

Lemma token_loop_nonempty lines :
  Forall (fun content => nonempty content = true) (token_loop json_content lines).
Proof.
  induction lines as [|[cancelled line] rest IH]; cbn [token_loop]; [constructor|].
  destruct cancelled; [constructor|].
  destruct (negb (starts_with (py "data: ") line)); [exact IH|].
  destruct (str_eqb line (py "data: [DONE]")); [constructor|].
  destruct (json_content (drop 6 line)) as [content| |]; try exact IH;
    [|constructor].
  destruct (nonempty content) eqn:E; [constructor; assumption|exact IH].
Qed.

Lemma token_loop_stop pre cancelled line post :
  cancelled = true \/ line = py "data: [DONE]" ->
  token_loop json_content (pre ++ (cancelled, line) :: post)
  = token_loop json_content pre.
Proof.
  intros Hstop. induction pre as [|[c l] pre IH]; cbn [app token_loop].
  - destruct Hstop as [-> | ->]; [reflexivity|]. destruct cancelled; reflexivity.
  - rewrite IH. reflexivity.
Qed.

Lemma token_loop_skip pre line post :
  starts_with (py "data: ") line = false ->
  token_loop json_content (pre ++ (false, line) :: post)
  = token_loop json_content (pre ++ post).
Proof.
  intros Hskip. induction pre as [|[c l] pre IH]; cbn [app token_loop].
  - rewrite Hskip. reflexivity.
  - rewrite IH. reflexivity.
Qed.

End TokenStreamFacts.

(** X18: whatever the service sends and however its payloads decode,
    [stream_tokens] never yields an empty content. *)
Theorem stream_tokens_yields_nonempty (json_content : str -> decoded)
    (response : result http_response) :
  Forall (fun content => nonempty content = true)
         (stream_tokens json_content response).
Proof.
  destruct response as [r|e]; cbn [stream_tokens]; [|constructor].
  destruct (status_code r =? 200); [apply token_loop_nonempty|constructor].
Qed.

(** X19: the line protocol of [stream_tokens]: nothing that follows the
    line ["data: [DONE]"], or a line at which the cancel signal is seen, is
    yielded; and a line that does not start with ["data: "] can be dropped
    from the stream without changing what is yielded. *)
Theorem stream_tokens_line_protocol (json_content : str -> decoded)
    (status : nat) (pre post : list (bool * str)) (cancelled : bool) (line : str) :
  (cancelled = true \/ line = py "data: [DONE]" ->
     stream_tokens json_content
       (Returns {| status_code := status;
                   lines := pre ++ (cancelled, line) :: post |})
     = stream_tokens json_content
         (Returns {| status_code := status; lines := pre |}))
  /\ (cancelled = false -> starts_with (py "data: ") line = false ->
        stream_tokens json_content
          (Returns {| status_code := status;
                      lines := pre ++ (cancelled, line) :: post |})
        = stream_tokens json_content
            (Returns {| status_code := status; lines := pre ++ post |})).
Proof.
  cbn [stream_tokens status_code lines]. split.
  - intros Hstop. rewrite (token_loop_stop _ _ _ _ _ Hstop). reflexivity.
  - intros -> Hskip. rewrite (token_loop_skip _ _ _ _ Hskip). reflexivity.
Qed.

Lemma stream_tokens_line_protocol_witness :
  stream_tokens plain_content
    (Returns {| status_code := 200;
                lines := [(false, py "data: Hello"); (false, py "data: [DONE]");
                          (false, py "data: ignored")] |})
  = [py "Hello"]
  /\ stream_tokens plain_content
       (Returns {| status_code := 200;
                   lines := [(false, py "data: Hello"); (false, py ": keep-alive");
                             (false, py "data:  there")] |})
     = [py "Hello"; py " there"].
Proof.
  split.
  - exact (proj1 (stream_tokens_line_protocol plain_content 200
                    [(false, py "data: Hello")] [(false, py "data: ignored")]
                    false (py "data: [DONE]"))
                 (or_intror eq_refl)).
  - exact (proj2 (stream_tokens_line_protocol plain_content 200
                    [(false, py "data: Hello")] [(false, py "data:  there")]
                    false (py ": keep-alive"))
                 eq_refl eq_refl).
Defined.

Lemma concat_nonempty_nil (tokens : list str) :
  Forall (fun content => nonempty content = true) tokens ->
  concat tokens = [] -> tokens = [].
Proof.
  destruct 1 as [|c tokens Hc _]; [reflexivity|].
  destruct c; [discriminate|]. discriminate.
Qed.

(** X20: the response of the first leg is empty exactly when the token
    stream yields nothing: a turn is only taken as without speakable text
    when the service sent no content at all. *)
Theorem empty_response_iff_no_token (json_content : str -> decoded)
    (response : result http_response) :
  full_response (llm_producer (stream_tokens json_content response)) = []
  <-> stream_tokens json_content response = [].
Proof.
  unfold llm_producer, producer_finally. cbn [full_response].
  rewrite (producer_fold_response _ producer_init). cbn [full_response app].
  split.
  - apply concat_nonempty_nil.
    destruct response as [r|e]; cbn [stream_tokens]; [|constructor].
    destruct (status_code r =? 200); [apply token_loop_nonempty|constructor].
  - intros ->. reflexivity.
Qed.

(** ** tts.py: the feeder *)

Lemma feeder_prefix polls : forall q,
  exists frs,
    fst (feeder polls q)
    = ((fun f => convert (f ++ py " ")) <$> frs)
      ++ (if snd (feeder polls q) then [flush] else [])
    /\ (Some <$> frs) `prefix_of` q.
Proof.
  induction polls as [|p polls IH]; intros q; cbn [feeder].
  - exists []. split; [reflexivity|apply prefix_nil].
  - destruct (cancelled_before p).
    { exists []. split; [reflexivity|apply prefix_nil]. }
    destruct (timed_out p); [apply IH|].
    destruct q as [|[sentence|] q]; [apply IH| |].
    + destruct (cancelled_after p).
      { exists []. split; [reflexivity|apply prefix_nil]. }
      destruct (IH q) as (frs & Hacts & Hpre).
      destruct (feeder polls q) as [actions stopped].
      exists (sentence :: frs). cbn [fst snd] in *. rewrite Hacts.
      split; [reflexivity|]. cbn [fmap list_fmap]. apply prefix_cons, Hpre.
    + exists []. split; [reflexivity|apply prefix_nil].
Qed.

(** X21: the feeder converts fragments of the queue only, in queue order
    and from its front, each with one space appended; it never converts the
    sentinel; and when it leaves its loop it has flushed exactly once, as
    its last call. *)
Theorem feeder_converts_queue_prefix (polls : list poll) (q : queue) :
  exists frs,
    fst (feeder polls q)
    = ((fun f => convert (f ++ py " ")) <$> frs)
      ++ (if snd (feeder polls q) then [flush] else [])
    /\ (Some <$> frs) `prefix_of` q.
Proof. apply feeder_prefix. Qed.

Lemma feeder_drains polls : forall frs rest,
  Forall (fun p => cancelled_before p = false /\ cancelled_after p = false) polls ->
  length frs < answered polls ->
  feeder polls ((Some <$> frs) ++ None :: rest)
  = (((fun f => convert (f ++ py " ")) <$> frs) ++ [flush], true).
Proof.
  unfold answered.
  induction polls as [|p polls IH]; intros frs rest Hcalm Hlen.
  - simpl in Hlen. lia.
  - inversion Hcalm as [|? ? [Hb Ha] Hcalm']; subst.
    cbn [feeder List.filter] in *. rewrite Hb.
    destruct (timed_out p); cbn [negb] in *; [apply IH; assumption|].
    destruct frs as [|f frs]; [reflexivity|].
    cbn [fmap list_fmap app]. rewrite Ha.
    cbn [length] in Hlen. rewrite (IH frs rest Hcalm') by lia. reflexivity.
Qed.

(** X22: when the cancel signal is never seen and the wait succeeds more
    often than there are fragments before the sentinel, the feeder converts
    every one of them, in order, then flushes and stops. *)
Theorem feeder_speaks_whole_queue (polls : list poll) (frs : list str)
    (rest : queue) :
  Forall (fun p => cancelled_before p = false /\ cancelled_after p = false) polls ->
  length frs < answered polls ->
  feeder polls ((Some <$> frs) ++ None :: rest)
  = (((fun f => convert (f ++ py " ")) <$> frs) ++ [flush], true).
Proof. apply feeder_drains. Qed.

Lemma feeder_speaks_whole_queue_witness :
  let calm := {| cancelled_before := false; timed_out := false;
                 cancelled_after := false |} in
  let late := {| cancelled_before := false; timed_out := true;
                 cancelled_after := false |} in
  feeder [late; calm; late; calm; calm]
         (sentences_queue (llm_producer [py "Hi there. "; py "How are you?"]))
  = ([convert (py "Hi there. "); convert (py "How are you? "); flush], true).
Proof.
  intros calm late.
  apply (feeder_speaks_whole_queue [late; calm; late; calm; calm]
           [py "Hi there."; py "How are you?"] []).
  - repeat constructor.
  - vm_compute. lia.
Defined.

(** ** server.py: the session *)

Lemma serve_snoc inputs i : serve (inputs ++ [i]) = handle (serve inputs) i.
Proof. unfold serve. rewrite fold_left_app. reflexivity. Qed.

Lemma set_cancel_snoc l t :
  set_cancel (l ++ [t])
  = l ++ [ {| utterance := utterance t; cancel_is_set := true |} ].
Proof.
  unfold set_cancel. rewrite removelast_last, last_snoc.
  destruct (l ++ [t]) eqn:E; [destruct l; discriminate|reflexivity].
Qed.

Lemma set_cancel_utterances ts : utterance <$> set_cancel ts = utterance <$> ts.
Proof.
  destruct ts as [|t l _] using rev_ind; [reflexivity|].
  rewrite set_cancel_snoc, !fmap_app. reflexivity.
Qed.

Lemma set_cancel_dispatchable ts :
  Forall dispatchable ts -> Forall dispatchable (set_cancel ts).
Proof.
  destruct ts as [|t l _] using rev_ind; [auto|].
  rewrite set_cancel_snoc. intros [Hl Ht]%Forall_app.
  apply Forall_app. split; [exact Hl|].
  apply Forall_inv in Ht. repeat constructor; apply Ht.
Qed.

Lemma cancelled_count_snoc l t :
  cancelled_count (l ++ [t])
  = cancelled_count l + (if cancel_is_set t then 1 else 0).
Proof.
  unfold cancelled_count. rewrite List.filter_app, length_app. cbn [List.filter].
  destruct (cancel_is_set t); reflexivity.
Qed.

Lemma cancelled_count_set_cancel ts :
  cancelled_count ts <= cancelled_count (set_cancel ts).
Proof.
  destruct ts as [|t l _] using rev_ind; [reflexivity|].
  rewrite set_cancel_snoc, !cancelled_count_snoc. cbn [cancel_is_set].
  destruct (cancel_is_set t); lia.
Qed.

Lemma stop_count_snoc events e :
  stop_count (events ++ [e])
  = stop_count events + match e with stop_audio => 1 | _ => 0 end.
Proof.
  unfold stop_count. rewrite List.filter_app, length_app. destruct e; reflexivity.
Qed.

Lemma announced_snoc events e :
  announced (events ++ [e])
  = announced events
    ++ match e with final_transcript text => [text] | _ => [] end.
Proof. unfold announced. rewrite omap_app. destruct e; reflexivity. Qed.

Lemma handle_dispatchable s i :
  Forall dispatchable (turns s) -> Forall dispatchable (turns (handle s i)).
Proof.
  intros Hs. destruct i; cbn [handle]; try exact Hs.
  - destruct (connected s); [destruct send_ok|]; exact Hs.
  - destruct (nonempty (strip (join_space (current_utterance s)))) eqn:Hne;
      [|exact Hs].
    unfold do_llm_tts. cbn [turns task_running]. apply Forall_app. split.
    + destruct (task_running s); [apply set_cancel_dispatchable|]; exact Hs.
    + repeat constructor; cbn [utterance]; [exact Hne|apply strip_by_idem].
  - destruct (ai_speaking s && negb (cancel_event_is_set s)); [|exact Hs].
    apply set_cancel_dispatchable, Hs.
  - destruct (task_running s); exact Hs.
Qed.

Lemma serve_dispatchable inputs : Forall dispatchable (turns (serve inputs)).
Proof.
  induction inputs as [|i inputs IH] using rev_ind; [constructor|].
  rewrite serve_snoc. apply handle_dispatchable, IH.
Qed.

(** X23: every transcript the session hands to the pipeline is non-empty
    and has no whitespace at either end, whatever the browser and the
    recognition service send. *)
Theorem session_dispatches_stripped_transcripts (inputs : list session_input) :
  Forall (fun t => nonempty (utterance t) = true
                   /\ strip (utterance t) = utterance t)
         (turns (serve inputs)).
Proof. apply serve_dispatchable. Qed.

(** X24: on the transcripts the session hands to the pipeline, the
    speculative query of [clean_for_search] is never empty, and when the
    fallback applies it is the utterance itself. *)
Theorem speculative_query_of_dispatched (lower : str -> str)
    (inputs : list session_input) (t : turn) :
  t ∈ turns (serve inputs) ->
  clean_for_search lower (utterance t) <> []
  /\ (length (join_space
                (List.filter (fun w => negb (is_filler lower w))
                             (split (utterance t)))) < 5 ->
      clean_for_search lower (utterance t) = utterance t).
Proof.
  intros Hin.
  pose proof (proj1 (Forall_forall _ _) (serve_dispatchable inputs) t Hin)
    as [Hne Hstrip].
  unfold clean_for_search.
  set (kept := List.filter (fun w => negb (is_filler lower w)) (split (utterance t))).
  assert (Forall (fun w => is_word w = true) kept) as Hkept
    by apply filter_words, split_words.
  rewrite (strip_join_space kept Hkept), Hstrip.
  destruct (length (join_space kept) <? 5) eqn:Hlen.
  - split; [|reflexivity]. intros H. rewrite H in Hne. discriminate.
  - apply Nat.ltb_ge in Hlen. split; [|lia].
    intros H. rewrite H in Hlen. simpl in Hlen. lia.
Qed.

Lemma speculative_query_of_dispatched_witness :
  clean_for_search ascii_lower (py "ok   hi") = py "ok   hi".
Proof.
  refine (proj2 (speculative_query_of_dispatched ascii_lower
                   [stt_transcript (py " ok "); stt_transcript (py " hi ");
                    user_stopped_speaking]
                   {| utterance := py "ok   hi"; cancel_is_set := false |} _) _).
  - vm_compute. left.
  - vm_compute. lia.
Defined.

Lemma handle_barge_in_invariant s i :
  barge_in_invariant s -> barge_in_invariant (handle s i).
Proof.
  intros [Hcount Hlive]. destruct i; cbn [handle]; try exact (conj Hcount Hlive).
  - destruct (connected s); [destruct send_ok|]; exact (conj Hcount Hlive).
  - destruct (nonempty (strip (join_space (current_utterance s)))).
    + unfold do_llm_tts, barge_in_invariant.
      cbn [turns outbox ai_speaking task_running].
      rewrite stop_count_snoc, cancelled_count_snoc. cbn [cancel_is_set].
      split; [|intros _ H; apply app_eq_nil in H as [_ H]; discriminate].
      destruct (task_running s);
        [pose proof (cancelled_count_set_cancel (turns s))|]; lia.
    + exact (conj Hcount Hlive).
  - destruct (ai_speaking s) eqn:Hai; cbn [andb];
      [|split; [exact Hcount|rewrite Hai; discriminate]].
    destruct (cancel_event_is_set s) eqn:Hset; cbn [negb];
      [split; [exact Hcount|intros _; apply Hlive; reflexivity]|].
    unfold barge_in_invariant. cbn [turns outbox ai_speaking].
    split; [|discriminate]. rewrite stop_count_snoc.
    specialize (Hlive eq_refl). unfold cancel_event_is_set in Hset.
    destruct (turns s) as [|t l _] using rev_ind; [congruence|].
    rewrite last_snoc in Hset. rewrite set_cancel_snoc, !cancelled_count_snoc.
    rewrite cancelled_count_snoc, Hset in Hcount. cbn [cancel_is_set]. lia.
  - unfold barge_in_invariant. cbn [turns outbox ai_speaking].
    rewrite stop_count_snoc. split; [lia|exact Hlive].
  - destruct (task_running s); [|exact (conj Hcount Hlive)].
    split; [exact Hcount|discriminate].
Qed.

Lemma serve_barge_in_invariant inputs : barge_in_invariant (serve inputs).
Proof.
  induction inputs as [|i inputs IH] using rev_ind.
  - split; [reflexivity|discriminate].
  - rewrite serve_snoc. apply handle_barge_in_invariant, IH.
Qed.

(** X25: the session sends at most one [stop_audio] per started turn: the
    number of [stop_audio] events never exceeds the number of turns whose
    cancel event is set. *)
Theorem one_stop_audio_per_turn (inputs : list session_input) :
  stop_count (outbox (serve inputs)) <= cancelled_count (turns (serve inputs))
  /\ cancelled_count (turns (serve inputs)) <= length (turns (serve inputs)).
Proof.
  split; [apply serve_barge_in_invariant|].
  unfold cancelled_count. apply List.filter_length_le.
Qed.

Lemma handle_announced s i :
  announced (outbox s) = utterance <$> turns s ->
  announced (outbox (handle s i)) = utterance <$> turns (handle s i).
Proof.
  intros Hs. destruct i; cbn [handle]; try exact Hs.
  - destruct (connected s); [destruct send_ok|]; exact Hs.
  - destruct (nonempty (strip (join_space (current_utterance s)))); [|exact Hs].
    unfold do_llm_tts. cbn [turns outbox task_running].
    rewrite announced_snoc, fmap_app, Hs.
    destruct (task_running s); [rewrite set_cancel_utterances|]; reflexivity.
  - destruct (ai_speaking s && negb (cancel_event_is_set s)); [|exact Hs].
    cbn [turns outbox]. rewrite announced_snoc, set_cancel_utterances, Hs.
    apply app_nil_r.
  - cbn [turns outbox]. rewrite announced_snoc, Hs. apply app_nil_r.
  - destruct (task_running s); exact Hs.
Qed.

(** X26: every turn the session starts is announced to the browser by one
    [final_transcript] event carrying its transcript, and nothing else is:
    the texts announced, in order, are the transcripts of the turns. *)
Theorem turns_are_announced (inputs : list session_input) :
  announced (outbox (serve inputs)) = utterance <$> turns (serve inputs).
Proof.
  induction inputs as [|i inputs IH] using rev_ind; [reflexivity|].
  rewrite serve_snoc. apply handle_announced, IH.
Qed.

(** ** pipeline.py: the outcomes of a turn *)

Section TurnFacts.

Variable lower : str -> str.

Ltac advance := cbv beta iota; rewrite ?pop_snoc; cbv beta iota.

Ltac ended :=
  match goal with
  | |- exists rep, (Returns ?r, _) = _ /\ _ =>
      exists r; split; [reflexivity|];
      cbn; repeat split; auto; try discriminate; eauto
  end.

Lemma finish_cases env full rs chunks h m :
  exists rep,
    finish env full rs chunks (h ++ [m])
    = (Returns rep,
       match result_of rep with
       | Committed => (h ++ [m]) ++ [ {| role := Assistant; content := response rep |} ]
       | _ => h
       end)
    /\ rounds rep = rs
    /\ (cancelled_at_finish env = true -> result_of rep = Cancelled)
    /\ (result_of rep = Committed -> response rep <> []).
Proof.
  unfold finish, bindM, ret, append.
  destruct (cancelled_at_finish env); advance; [ended|].
  destruct full as [|c full]; cbn [nonempty negb]; advance; ended.
Qed.

(** Every way a turn ends, with what it leaves and what it reports. *)
Lemma run_cases env transcript h :
  let messages := sanitize h ++ [ {| role := User; content := transcript |} ] in
  exists rep,
    run lower env transcript h
    = (Returns rep,
       match result_of rep with
       | Committed =>
           messages ++ [ {| role := Assistant; content := response rep |} ]
       | _ => sanitize h
       end)
    /\ (rounds rep = [messages]
        \/ exists directive prompt,
            rounds rep
            = [messages;
               (messages ++ [ {| role := Assistant; content := directive |} ])
               ++ [ {| role := User; content := prompt |} ]])
    /\ (cancelled_at_finish env = true -> result_of rep = Cancelled)
    /\ (cancelled_after_gather env = true ->
        result_of rep = Cancelled /\ rounds rep = [messages])
    /\ (result_of rep = Committed -> response rep <> []).
Proof.
  intros messages.
  assert (forall full rs chunks,
    (rs = [messages]
     \/ exists directive prompt,
         rs = [messages;
               (messages ++ [ {| role := Assistant; content := directive |} ])
               ++ [ {| role := User; content := prompt |} ]]) ->
    cancelled_after_gather env = false ->
    exists rep,
      finish env full rs chunks messages
      = (Returns rep,
         match result_of rep with
         | Committed =>
             messages ++ [ {| role := Assistant; content := response rep |} ]
         | _ => sanitize h
         end)
      /\ (rounds rep = [messages]
          \/ exists directive prompt,
              rounds rep
              = [messages;
                 (messages ++ [ {| role := Assistant; content := directive |} ])
                 ++ [ {| role := User; content := prompt |} ]])
      /\ (cancelled_at_finish env = true -> result_of rep = Cancelled)
      /\ (cancelled_after_gather env = true ->
          result_of rep = Cancelled /\ rounds rep = [messages])
      /\ (result_of rep = Committed -> response rep <> [])) as Hfinish.
  { intros full rs chunks Hrs Hgather.
    destruct (finish_cases env full rs chunks (sanitize h)
                {| role := User; content := transcript |})
      as (rep & Hrep & Hrounds & Hcancel & Hcommit).
    exists rep. split; [exact Hrep|]. rewrite Hrounds.
    repeat split; try assumption; congruence. }
  unfold run, bindM, sanitize_history, append, get_history, ret, lift.
  cbv beta iota zeta. fold messages.
  set (p := llm_producer (llm_tokens env messages)).
  destruct (cancelled_after_gather env) eqn:Hgather; unfold messages at 1; advance.
  { ended. }
  fold messages.
  destruct (is_search p); [|apply Hfinish; auto].
  destruct (SEARCH_directive (full_response p)) as [g|]; [|apply Hfinish; auto].
  destruct (resolve_search_returns lower env (clean_for_search lower transcript)
              (strip g)) as [search_results ->].
  destruct (cancelled_after_search env) eqn:Hsearch; unfold messages at 1; advance.
  { (* cancelled after the search: at the finish too, the signal being kept *)
    fold messages.
    match goal with
    | |- exists rep, (Returns ?r, _) = _ /\ _ =>
        exists r; split; [reflexivity|]; cbn; repeat split; auto; discriminate
    end. }
  fold messages.
  destruct (cancelled_after_second_leg env); advance.
  - unfold messages at 1. advance. fold messages.
    match goal with
    | |- exists rep, (Returns ?r, _) = _ /\ _ =>
        exists r; split; [reflexivity|]; cbn; repeat split; eauto; discriminate
    end.
  - apply Hfinish; eauto.
Qed.

End TurnFacts.

Section TaskFacts.

Variable lower : str -> str.

Variable interrupt : await_point -> bool.

Ltac proceed := cbv beta iota; rewrite ?pop_snoc; cbv beta iota.

Lemma finish_task_cases env full rs chunks h m :
  match finish_task interrupt env full rs chunks (h ++ [m]) with
  | (Returns rep, h') =>
      (result_of rep = Committed
       /\ response rep <> []
       /\ h' = h ++ [m; {| role := Assistant; content := response rep |}])
      \/ (result_of rep <> Committed /\ h' = h)
  | (Raises _, h') =>
      h' = h ++ [m]
      \/ exists answer,
           answer <> []
           /\ h' = h ++ [m; {| role := Assistant; content := answer |}]
  end.
Proof.
  unfold finish_task, bindM, await, ret, append.
  destruct (interrupt send_llm_done); proceed; [left; reflexivity|].
  destruct (cancelled_at_finish env); proceed.
  { right. split; [discriminate|reflexivity]. }
  destruct full as [|c full]; cbn [nonempty negb]; proceed.
  { right. split; [discriminate|reflexivity]. }
  destruct (interrupt send_tts_done); proceed; rewrite <- app_assoc.
  - right. exists (c :: full). split; [discriminate|reflexivity].
  - left. split; [reflexivity|]. split; [discriminate|reflexivity].
Qed.

(** Every way a task ends, and the record it leaves: the sanitized record,
    followed by nothing, by the user message, by the user message and the
    answer, or by the user message, the directive and the search prompt. *)
Lemma run_task_cases env transcript h :
  let u := {| role := User; content := transcript |} in
  match run_task lower interrupt env transcript h with
  | (Returns rep, h') =>
      (result_of rep = Committed
       /\ response rep <> []
       /\ h' = sanitize h
               ++ [u; {| role := Assistant; content := response rep |}])
      \/ (result_of rep <> Committed /\ h' = sanitize h)
  | (Raises _, h') =>
      h' = sanitize h ++ [u]
      \/ (exists answer,
            answer <> []
            /\ h' = sanitize h
                    ++ [u; {| role := Assistant; content := answer |}])
      \/ (exists directive prompt,
            h' = sanitize h
                 ++ [u; {| role := Assistant; content := directive |};
                     {| role := User; content := prompt |}])
  end.
Proof.
  intros u.
  assert (forall full rs chunks,
    match finish_task interrupt env full rs chunks (sanitize h ++ [u]) with
    | (Returns rep, h') =>
        (result_of rep = Committed
         /\ response rep <> []
         /\ h' = sanitize h
                 ++ [u; {| role := Assistant; content := response rep |}])
        \/ (result_of rep <> Committed /\ h' = sanitize h)
    | (Raises _, h') =>
        h' = sanitize h ++ [u]
        \/ (exists answer,
              answer <> []
              /\ h' = sanitize h
                      ++ [u; {| role := Assistant; content := answer |}])
        \/ (exists directive prompt,
              h' = sanitize h
                   ++ [u; {| role := Assistant; content := directive |};
                       {| role := User; content := prompt |}])
    end) as Hfinish.
  { intros full rs chunks.
    pose proof (finish_task_cases env full rs chunks (sanitize h) u) as H.
    destruct (finish_task interrupt env full rs chunks (sanitize h ++ [u]))
      as [[rep | e] h']; [exact H|].
    destruct H as [H | H]; [left; exact H|right; left; exact H]. }
  unfold run_task, bindM, sanitize_history, append, get_history, ret, lift, await.
  cbv beta iota zeta. fold u.
  set (messages := sanitize h ++ [u]) in *.
  destruct (interrupt send_tts_start); proceed; [left; reflexivity|].
  destruct (interrupt gather_first_leg); proceed; [left; reflexivity|].
  destruct (cancelled_after_gather env); unfold messages at 1; proceed.
  { right. split; [discriminate|reflexivity]. }
  fold messages.
  destruct (is_search (llm_producer _)); proceed; [|apply Hfinish].
  destruct (SEARCH_directive _) as [g|]; proceed; [|apply Hfinish].
  destruct (interrupt send_search_start); proceed; [left; reflexivity|].
  destruct (interrupt wait_search_results); proceed; [left; reflexivity|].
  destruct (resolve_search_returns lower env (clean_for_search lower transcript)
              (strip g)) as [search_results ->].
  destruct (cancelled_after_search env); unfold messages at 1; proceed.
  { right. split; [discriminate|reflexivity]. }
  fold messages.
  destruct (interrupt send_search_audio_done); proceed; [left; reflexivity|].
  destruct (interrupt second_leg); proceed.
  { right. right. eexists _, _. unfold messages. rewrite <- !app_assoc.
    reflexivity. }
  destruct (cancelled_after_second_leg env); proceed; [|apply Hfinish].
  unfold messages at 1. proceed. right. split; [discriminate|reflexivity].
Qed.

End TaskFacts.

(** X27: what a turn leaves on the record, however it ends.  A turn that
    returns is all or nothing: the sanitized record with the user message
    and the assistant message of a non-empty response added when it
    commits, the sanitized record alone otherwise.  A turn whose task ends
    at an [await] leaves what it had appended by then: the user message,
    alone, with the answer, or with the directive and the search prompt.
    The entries of the sanitized record are never touched. *)
Theorem turn_leaves_on_record (lower : str -> str)
    (interrupt : await_point -> bool) (env : turn_env) (transcript : str)
    (h : list message) :
  let u := {| role := User; content := transcript |} in
  match run_task lower interrupt env transcript h with
  | (Returns rep, h') =>
      (result_of rep = Committed
       /\ response rep <> []
       /\ h' = sanitize h
               ++ [u; {| role := Assistant; content := response rep |}])
      \/ (result_of rep <> Committed /\ h' = sanitize h)
  | (Raises _, h') =>
      h' = sanitize h ++ [u]
      \/ (exists answer,
            answer <> []
            /\ h' = sanitize h
                    ++ [u; {| role := Assistant; content := answer |}])
      \/ (exists directive prompt,
            h' = sanitize h
                 ++ [u; {| role := Assistant; content := directive |};
                     {| role := User; content := prompt |}])
  end.
Proof. apply run_task_cases. Qed.

(** A task cancelled while it awaits its second leg leaves the directive
    and the search prompt behind the user message. *)
Example task_cancelled_in_second_leg :
  map role
    (snd (run_task ascii_lower
            (fun p => match p with second_leg => true | _ => false end)
            search_turn (py "what is the weather in Mumbai today")
            (conversation_history (py "You are Baatein."))))
  = [System; User; Assistant; User].
Proof. vm_compute. reflexivity. Qed.

(** X28: a turn that finds the cancel signal set, at its first check after
    the first leg or at its last check, reports [Cancelled] and rolls the
    record back to the sanitized one; cancelled at the first check, it has
    run one generation round only. *)
Theorem cancelled_turn_rolls_back (lower : str -> str) (env : turn_env)
    (transcript : str) (h : list message) :
  cancelled_after_gather env = true \/ cancelled_at_finish env = true ->
  exists rep,
    run lower env transcript h = (Returns rep, sanitize h)
    /\ result_of rep = Cancelled
    /\ (cancelled_after_gather env = true ->
        rounds rep
        = [sanitize h ++ [ {| role := User; content := transcript |} ]]).
Proof.
  intros Hcancel.
  destruct (run_cases lower env transcript h)
    as (rep & Hrun & _ & Hfinish & Hgather & _).
  exists rep.
  assert (result_of rep = Cancelled) as Hres
    by (destruct Hcancel as [H | H]; [apply Hgather, H|apply Hfinish, H]).
  rewrite Hres in Hrun. split; [exact Hrun|]. split; [exact Hres|].
  intros H. apply Hgather, H.
Qed.

Lemma cancelled_turn_rolls_back_witness :
  let env :=
    {| llm_tokens := fun _ => [py "Hi there. "; py "How are you?"];
       tts_first_leg := silent_socket; tts_second_leg := silent_socket;
       ddgs_speculative := offline; ddgs_fresh := offline;
       speculative_timed_out := false;
       cancelled_at_consumer := false; cancelled_after_gather := false;
       cancelled_after_search := false; cancelled_after_second_leg := false;
       cancelled_at_finish := true |} in
  exists rep,
    run ascii_lower env (py "hello") (conversation_history (py "You are Baatein."))
    = (Returns rep, conversation_history (py "You are Baatein."))
    /\ result_of rep = Cancelled.
Proof.
  intros env.
  destruct (cancelled_turn_rolls_back ascii_lower env (py "hello")
              (conversation_history (py "You are Baatein."))
              (or_intror eq_refl))
    as (rep & Hrun & Hres & _).
  exists rep. split; [exact Hrun|exact Hres].
Defined.

(** ** The record across turns, the ones cut short included *)

Lemma merge_from_no_system rest : forall m,
  Forall (fun m => role m <> System) (m :: rest) ->
  Forall (fun m => role m <> System) (merge_from m rest).
Proof.
  induction rest as [|next rest IH]; intros m Hall; cbn [merge_from];
    [exact Hall|].
  pose proof (Forall_inv Hall) as Hm.
  pose proof (Forall_inv_tail Hall) as Hrest.
  destruct (role_eqb (role m) (role next)).
  - apply IH. constructor; [exact Hm|exact (Forall_inv_tail Hrest)].
  - constructor; [exact Hm|apply IH, Hrest].
Qed.

Lemma sanitize_dialogue SYSTEM_PROMPT h :
  dialogue SYSTEM_PROMPT h -> dialogue SYSTEM_PROMPT (sanitize h).
Proof.
  intros (rest & -> & Hroles & Hhead).
  destruct rest as [|m1 rest]; [exists []; auto|].
  cbn [sanitize]. exists (merge_from m1 rest).
  split; [reflexivity|]. split; [apply merge_from_no_system, Hroles|].
  destruct (merge_from_head rest m1) as (m' & rest' & -> & Hrole).
  cbn [head fmap option_fmap option_map] in *. rewrite Hrole. exact Hhead.
Qed.

Lemma dialogue_app SYSTEM_PROMPT h l :
  dialogue SYSTEM_PROMPT h ->
  Forall (fun m => role m <> System) l ->
  role <$> head l <> Some Assistant ->
  dialogue SYSTEM_PROMPT (h ++ l).
Proof.
  intros (rest & -> & Hroles & Hhead) Hl Hfirst.
  exists (rest ++ l). split; [reflexivity|].
  split; [apply Forall_app; auto|].
  destruct rest; [exact Hfirst|exact Hhead].
Qed.

Lemma reachable_dialogue lower SYSTEM_PROMPT h :
  reachable lower SYSTEM_PROMPT h -> dialogue SYSTEM_PROMPT h.
Proof.
  induction 1 as [|h h' _ IH (interrupt & env & transcript & ->)].
  - exists []. split; [reflexivity|]. split; [constructor|discriminate].
  - apply sanitize_dialogue in IH.
    pose proof (run_task_cases lower interrupt env transcript h) as Hcases.
    cbv zeta in Hcases.
    destruct (run_task lower interrupt env transcript h) as [[rep | e] h'].
    + cbn [snd]. destruct Hcases as [(_ & _ & ->) | (_ & ->)]; [|exact IH].
      apply dialogue_app; [exact IH| |discriminate].
      repeat constructor; discriminate.
    + cbn [snd].
      destruct Hcases as [-> | [(answer & _ & ->) | (directive & prompt & ->)]];
        (apply dialogue_app; [exact IH| |discriminate]);
        repeat constructor; discriminate.
Qed.

Lemma distinct_alternates l : forall e,
  e <> System ->
  Forall (fun m => role m <> System) l ->
  adjacent_distinct l = true ->
  role <$> head l <> Some (flip e) ->
  alternates e l = true.
Proof.
  induction l as [|m1 l IH]; intros e He Hroles Hd Hfirst; [reflexivity|].
  pose proof (Forall_inv Hroles) as H1.
  assert (role m1 = e) as Hm1.
  { cbn in Hfirst, H1. destruct e, (role m1); cbn in *; congruence. }
  cbn [alternates]. rewrite Hm1.
  replace (role_eqb e e) with true by (destruct e; reflexivity).
  cbn [andb]. apply IH.
  - destruct e; cbn; congruence.
  - apply (Forall_inv_tail Hroles).
  - destruct l as [|m2 l]; [reflexivity|].
    rewrite adjacent_distinct_cons in Hd. apply andb_true_iff in Hd. apply Hd.
  - destruct l as [|m2 l]; [discriminate|].
    rewrite adjacent_distinct_cons in Hd. apply andb_true_iff in Hd as [Hd _].
    rewrite Hm1 in Hd. cbn. intros [= H2]. rewrite H2 in Hd.
    destruct e; cbn in *; congruence.
Qed.

Lemma dialogue_sanitize_alternates SYSTEM_PROMPT h :
  dialogue SYSTEM_PROMPT h -> alternation_invariant SYSTEM_PROMPT (sanitize h).
Proof.
  intros Hd. pose proof (sanitize_dialogue _ _ Hd) as (rest & Hrest & Hroles & Hhead).
  exists rest. split; [exact Hrest|].
  apply distinct_alternates; [discriminate|exact Hroles| |exact Hhead].
  destruct Hd as (rest0 & -> & _).
  destruct rest0 as [|m1 rest0]; cbn [sanitize] in Hrest.
  - injection Hrest as <-. reflexivity.
  - injection Hrest as <-. apply merge_from_distinct.
Qed.

(** X29: every record that turns reach, the ones cut short included, is
    the system message followed by user and assistant messages, a user
    message first, and once sanitized its roles alternate user, assistant:
    what [sanitize_history] leaves at the start of the next turn, before
    the new user message is appended, alternates. *)
Theorem sanitized_record_alternates (lower : str -> str) (SYSTEM_PROMPT : str)
    (h : list message) :
  reachable lower SYSTEM_PROMPT h ->
  dialogue SYSTEM_PROMPT h
  /\ alternation_invariant SYSTEM_PROMPT (sanitize h).
Proof.
  intros Hd%reachable_dialogue. split; [exact Hd|].
  apply dialogue_sanitize_alternates, Hd.
Qed.

Lemma sanitized_record_alternates_witness :
  let h1 :=
    snd (run_task ascii_lower cancelled_in_first_leg direct_turn (py "hello")
           (conversation_history (py "You are Baatein."))) in
  let h2 :=
    snd (run_task ascii_lower uninterrupted direct_turn (py "are you there") h1) in
  map role h2 = [System; User; User; Assistant]
  /\ map role (sanitize h2) = [System; User; Assistant]
  /\ alternation_invariant (py "You are Baatein.") (sanitize h2).
Proof.
  intros h1 h2. split; [vm_compute; reflexivity|].
  split; [vm_compute; reflexivity|].
  refine (proj2 (sanitized_record_alternates ascii_lower (py "You are Baatein.")
                   h2 _)).
  eapply reachable_turn; [eapply reachable_turn; [apply reachable_start|]|].
  - exists cancelled_in_first_leg, direct_turn, (py "hello"). reflexivity.
  - exists uninterrupted, direct_turn, (py "are you there"). reflexivity.
Defined.
